(** * The vision pipeline of [vision/main.cpp]

    A shallow embedding of the four-thread AprilTag tracker: the
    single-slot hand-off between adjacent threads (a [shared_ptr] guarded
    by a mutex and a condition variable), the region-of-interest
    arithmetic of [lowResThread], the pose publication of
    [highResThread] and the quit path of [visThread].

    Conventions.
    - [int] values are in [Z].  Signed overflow is undefined behaviour in
      C++, so no wrap-around is written; pixel coordinates stay far below
      [2^31].
    - The corner coordinates returned by the marker detector are finite
      [double]s; they are modelled as rationals in [Q] and the
      arithmetic on them is exact.
    - Pose values ([tvec], [yaw]) are IEEE binary64 values, modelled by the
      primitive [float] type, so that NaN and the infinities exist.
    - Calls into the camera, the detector, the geometry solver, libm and
      the display return values the program does not control: they are
      the payload of the scheduler events below. *)

From Stdlib Require Import ZArith QArith Qround Qminmax Bool List Lia Lqa.
From Stdlib Require Import Floats.
Import ListNotations.

Local Open Scope Z_scope.

(* ================================================================== *)
(** * Config *)

Definition resoluion_divider : Z := 2.
Definition LOW_W : Z := 640.
Definition LOW_H : Z := 480.
Definition ROI_PAD : Z := 80.

(* ================================================================== *)
(** * Shared data structs *)

(** [cv::Mat] as far as the pipeline looks at it: its dimensions.  The
    pixels only reach the detector, whose answers are event payloads. *)
Record Mat := mkMat { cols : Z; rows : Z }.

Record FrameData := mkFrameData { frame : Mat; t_cam_ns : Z }.

(** [cv::Rect]: top-left corner and extent, all [int]. *)
Record Rect := mkRect { x : Z; y : Z; width : Z; height : Z }.

(** [cv::Rect()], the default rectangle. *)
Definition Rect0 : Rect := mkRect 0 0 0 0.

Record ROIResult := mkROIResult {
  roi_data : FrameData;
  roi : Rect;
  roi_valid : bool
}.

Definition Vec3d : Type := (float * float * float)%type.

Record PoseResult := mkPoseResult {
  pose_data : FrameData;
  tvec : Vec3d;
  yaw : float;
  pose_roi : Rect;
  pose_valid : bool
}.

(* ================================================================== *)
(** * Rectangles *)

(** [cv::Rect::empty()]. *)
Definition rect_empty (r : Rect) : bool :=
  (width r <=? 0) || (height r <=? 0).

(** Modelled from the spec: [operator&] on [cv::Rect] is OpenCV code, not
    part of this repository; the spec calls the step "clip to the full
    Frame's bounds".  The definition follows OpenCV's [operator&=]: the
    intersection of the two rectangles, and [cv::Rect()] when the
    intersection has no area. *)
Definition rect_and (a b : Rect) : Rect :=
  let x1 := Z.max (x a) (x b) in
  let y1 := Z.max (y a) (y b) in
  let w := Z.min (x a + width a) (x b + width b) - x1 in
  let h := Z.min (y a + height a) (y b + height b) - y1 in
  if (w <=? 0) || (h <=? 0) then Rect0 else mkRect x1 y1 w h.

(** A rectangle lies within a [w] by [h] image. *)
Definition rect_within (r : Rect) (w h : Z) : Prop :=
  0 <= x r /\ 0 <= y r /\ x r + width r <= w /\ y r + height r <= h.

(* ================================================================== *)
(** * Detections and the region of interest *)

Definition Point : Type := (Q * Q)%type.

(** [apriltag_detection_t], as far as it is read: [p[4][2]]. *)
Record Detection := mkDetection { p0 : Point; p1 : Point; p2 : Point; p3 : Point }.

Definition corners (d : Detection) : list Point := [p0 d; p1 d; p2 d; p3 d].

(** [std::min(a, b)] is [(b < a) ? b : a]; [std::max(a, b)] is
    [(a < b) ? b : a]. *)
Definition dmin (a b : Q) : Q :=
  match (b ?= a)%Q with Lt => b | _ => a end.

Definition dmax (a b : Q) : Q :=
  match (a ?= b)%Q with Lt => b | _ => a end.

Record BBox := mkBBox { minx : Q; miny : Q; maxx : Q; maxy : Q }.

(** The sentinels [1e9] and [-1e9] the scan starts from. *)
Definition big : Q := inject_Z 1000000000.

Definition bbox_init : BBox := mkBBox big big (- big)%Q (- big)%Q.

Definition bbox_step (b : BBox) (p : Point) : BBox :=
  mkBBox (dmin (minx b) (fst p)) (dmin (miny b) (snd p))
         (dmax (maxx b) (fst p)) (dmax (maxy b) (snd p)).

(** The [for (int i=0;i<4;i++)] scan over the corners. *)
Definition bbox_of (d : Detection) : BBox :=
  fold_left bbox_step (corners d) bbox_init.

(** [int(v)] for a finite [double v]: truncation toward zero. *)
Definition Qtrunc (q : Q) : Z := Z.quot (Qnum q) (Zpos (Qden q)).

(** [float(n)/LOW]: the ratio of the full to the downsampled extent. *)
Definition scale (full low : Z) : Q := (inject_Z full / inject_Z low)%Q.

(** The first argument of [&] at lines 166-171. *)
Definition roi_scaled (sx sy : Q) (d : Detection) : Rect :=
  let b := bbox_of d in
  mkRect (Qtrunc (minx b * sx) - ROI_PAD)
         (Qtrunc (miny b * sy) - ROI_PAD)
         (Qtrunc ((maxx b - minx b) * sx) + 2 * ROI_PAD)
         (Qtrunc ((maxy b - miny b) * sy) + 2 * ROI_PAD).

Definition roi_before_clip (gray : Mat) (d : Detection) : Rect :=
  roi_scaled (scale (cols gray) LOW_W) (scale (rows gray) LOW_H) d.

Definition compute_roi (gray : Mat) (d : Detection) : Rect :=
  rect_and (roi_before_clip gray d) (mkRect 0 0 (cols gray) (rows gray)).

(* ================================================================== *)
(** * Detector configuration *)






(* ================================================================== *)
(** * The single-slot hand-off *)

Section Slot.
Context {T : Type}.

(** A [std::shared_ptr<T>] global: null or one pending value. *)
Definition Mailbox : Type := option T.

(** [{ lock_guard lk(m); slot = v; }] *)
Definition publish (v : T) (_ : Mailbox) : Mailbox := Some v.

(** What a consumer thread is doing. *)
Inductive Status : Type :=
| Ready              (* running its own code, at the top of its loop *)
| Blocked            (* asleep inside [cv.wait] *)
| Took (v : T)       (* holds a value it took from its slot *)
| Done.              (* left its loop *)

(** One pass through
    [while (running) { cv.wait(lk, pred); if (!running) break;
                       v = slot; slot.reset(); ... }]
    up to the point where the thread either sleeps, leaves or holds a
    value.  [pred] is [slot || !running]. *)
Definition waitAndTake (running : bool) (m : Mailbox) : Status * Mailbox :=
  if negb running then (Done, m)
  else match m with
       | Some v => (Took v, None)
       | None => (Blocked, m)
       end.

(** [cv.notify_one()] as seen by the one thread that waits on [cv]: a
    sleeping thread is made runnable and will evaluate [pred] again. *)
Definition notify_one (st : Status) : Status :=
  match st with Blocked => Ready | _ => st end.
End Slot.

Arguments Mailbox : clear implicits.
Arguments Status : clear implicits.

(* ================================================================== *)
(** * The four threads *)

Inductive CapStatus := CapHead | CapPull | CapDone.

(** What [highResThread] gets back from [cv::solvePnP], [cv::Rodrigues]
    and [atan2] in one cycle. *)
Record Solve := mkSolve {
  pnp_ret : bool;      (* the return value of [cv::solvePnP], which line 241 drops *)
  pnp_rvec : Vec3d;
  pnp_tvec : Vec3d;
  atan2_R : float      (* [atan2(R(1,0), R(0,0))] for [R = Rodrigues(rvec)] *)
}.

Definition CV_PI : float := 0x1.921fb54442d18p+1%float.

(** Lines 245-246. *)
Definition yaw_deg (sol : Solve) : float :=
  (atan2_R sol * 180 / CV_PI)%float.

Definition vec_finite (v : Vec3d) : bool :=
  let '(a, b, c) := v in
  PrimFloat.is_finite a && PrimFloat.is_finite b && PrimFloat.is_finite c.

(** The solver's answer is usable: it reported success and every number
    in it is finite. *)
Definition solve_usable (sol : Solve) : bool :=
  pnp_ret sol && vec_finite (pnp_rvec sol) && vec_finite (pnp_tvec sol)
  && PrimFloat.is_finite (yaw_deg sol).

Inductive Stage := Capture | LowRes | HighRes | Vis.

Record State := mkState {
  running : bool;
  cap_frame : Mailbox FrameData;
  roi_result : Mailbox ROIResult;
  pose_result : Mailbox PoseResult;
  st_cap : CapStatus;
  st_low : Status FrameData;
  st_high : Status ROIResult;
  st_vis : Status PoseResult
}.

Definition init : State :=
  mkState true None None None CapHead Ready Ready Ready.

(** A scheduler event: one thread runs up to its next visible action.
    The payload is what the outside world would answer in that step. *)
Inductive Event :=
| RunCap (sample : option FrameData)
| RunLow (dets : list Detection)
| RunHigh (dets : list Detection) (sol : Solve)
| RunVis (key : Z)
| Spurious (t : Stage).

(** The character ['q']. *)
Definition key_q : Z := 113.

(** Each thread function below performs the thread's next step.  A step
    ends where the thread's effect on the shared state ends: at a store
    to a slot together with its [notify_one], at a take, at falling
    asleep, at leaving the loop.  What a thread does under its mutex is
    one step; [running] is atomic and read at the moment of the step.

    [captureThread], lines 84-113: the loop test, then the pull, and on a
    sample the store to [cap_frame] and [cv_cap.notify_one()]. *)
Definition captureThread (sample : option FrameData) (s : State) : State :=
  match st_cap s with
  | CapHead =>
      mkState (running s) (cap_frame s) (roi_result s) (pose_result s)
              (if running s then CapPull else CapDone)
              (st_low s) (st_high s) (st_vis s)
  | CapPull =>
      match sample with
      | None =>
          mkState (running s) (cap_frame s) (roi_result s) (pose_result s)
                  CapHead (st_low s) (st_high s) (st_vis s)
      | Some fd =>
          mkState (running s) (publish fd (cap_frame s)) (roi_result s)
                  (pose_result s) CapHead
                  (notify_one (st_low s)) (st_high s) (st_vis s)
      end
  | CapDone => s
  end.

(** [lowResThread], lines 127-181: the wait and take on [cap_frame]; then,
    for the detector's answer [dets], either [continue] or the store of
    the region of interest of [dets[0]] to [roi_result] and
    [cv_low.notify_one()]. *)
Definition lowResThread (dets : list Detection) (s : State) : State :=
  match st_low s with
  | Ready =>
      let '(st, m) := waitAndTake (running s) (cap_frame s) in
      mkState (running s) m (roi_result s) (pose_result s)
              (st_cap s) st (st_high s) (st_vis s)
  | Took fd =>
      match dets with
      | [] =>
          mkState (running s) (cap_frame s) (roi_result s) (pose_result s)
                  (st_cap s) Ready (st_high s) (st_vis s)
      | det :: _ =>
          let rr := mkROIResult fd (compute_roi (frame fd) det) true in
          mkState (running s) (cap_frame s) (publish rr (roi_result s))
                  (pose_result s) (st_cap s) Ready
                  (notify_one (st_high s)) (st_vis s)
      end
  | Blocked | Done => s
  end.

(** [highResThread], lines 197-262: the wait and take on [roi_result];
    then the validity test, the detector's answer [dets] on the cropped
    frame, and the store of the pose to [pose_result] with
    [cv_high.notify_one()].  The image points handed to the solver do
    not show in the stored record; the solver's answer is [sol]. *)
Definition highResThread (dets : list Detection) (sol : Solve) (s : State)
  : State :=
  match st_high s with
  | Ready =>
      let '(st, m) := waitAndTake (running s) (roi_result s) in
      mkState (running s) (cap_frame s) m (pose_result s)
              (st_cap s) (st_low s) st (st_vis s)
  | Took rr =>
      if negb (roi_valid rr) then
        mkState (running s) (cap_frame s) (roi_result s) (pose_result s)
                (st_cap s) (st_low s) Ready (st_vis s)
      else
        match dets with
        | [] =>
            mkState (running s) (cap_frame s) (roi_result s) (pose_result s)
                    (st_cap s) (st_low s) Ready (st_vis s)
        | _ :: _ =>
            let pr := mkPoseResult (roi_data rr) (pnp_tvec sol) (yaw_deg sol)
                                   (roi rr) true in
            mkState (running s) (cap_frame s) (roi_result s)
                    (publish pr (pose_result s))
                    (st_cap s) (st_low s) Ready (notify_one (st_vis s))
        end
  | Blocked | Done => s
  end.

(** [visThread], lines 273-300: the wait and take on [pose_result]; then
    the validity test, the drawing (which changes nothing shared) and
    [if (cv::waitKey(1) == 'q') running = false;]. *)
Definition visThread (key : Z) (s : State) : State :=
  match st_vis s with
  | Ready =>
      let '(st, m) := waitAndTake (running s) (pose_result s) in
      mkState (running s) (cap_frame s) (roi_result s) m
              (st_cap s) (st_low s) (st_high s) st
  | Took pr =>
      if negb (pose_valid pr) then
        mkState (running s) (cap_frame s) (roi_result s) (pose_result s)
                (st_cap s) (st_low s) (st_high s) Ready
      else
        mkState (if key =? key_q then false else running s)
                (cap_frame s) (roi_result s) (pose_result s)
                (st_cap s) (st_low s) (st_high s) Ready
  | Blocked | Done => s
  end.

(** A wake-up no thread asked for, which [cv.wait] is allowed to have. *)
Definition spurious (t : Stage) (s : State) : State :=
  match t with
  | Capture => s
  | LowRes =>
      mkState (running s) (cap_frame s) (roi_result s) (pose_result s)
              (st_cap s) (notify_one (st_low s)) (st_high s) (st_vis s)
  | HighRes =>
      mkState (running s) (cap_frame s) (roi_result s) (pose_result s)
              (st_cap s) (st_low s) (notify_one (st_high s)) (st_vis s)
  | Vis =>
      mkState (running s) (cap_frame s) (roi_result s) (pose_result s)
              (st_cap s) (st_low s) (st_high s) (notify_one (st_vis s))
  end.

Definition step (s : State) (e : Event) : State :=
  match e with
  | RunCap sample => captureThread sample s
  | RunLow dets => lowResThread dets s
  | RunHigh dets sol => highResThread dets sol s
  | RunVis key => visThread key s
  | Spurious t => spurious t s
  end.

Definition run (s : State) (es : list Event) : State := fold_left step es s.

(** The schedule contains no wake-up other than those the code issues. *)
Definition is_spurious (e : Event) : bool :=
  match e with Spurious _ => true | _ => false end.

Definition no_spurious (es : list Event) : bool :=
  forallb (fun e => negb (is_spurious e)) es.

(** Every frame the camera hands over has non-negative dimensions, as
    every [cv::Mat] has. *)
Definition mat_wf (m : Mat) : Prop := 0 <= cols m /\ 0 <= rows m.

Definition event_wf (e : Event) : Prop :=
  match e with
  | RunCap (Some fd) => mat_wf (frame fd)
  | _ => True
  end.

(* ================================================================== *)
(** * Predicates on states *)

(** Values the threads have handed over and not yet dropped: what sits in
    a slot, or what the consumer holds after taking it. *)
Definition roi_published (s : State) (rr : ROIResult) : Prop :=
  roi_result s = Some rr \/ st_high s = Took rr.

Definition pose_published (s : State) (pr : PoseResult) : Prop :=
  pose_result s = Some pr \/ st_vis s = Took pr.

(** The next step of the thread is the [if (!x->valid) continue;] branch. *)
Definition high_skips_invalid (s : State) : Prop :=
  exists rr, st_high s = Took rr /\ roi_valid rr = false.

Definition vis_skips_invalid (s : State) : Prop :=
  exists pr, st_vis s = Took pr /\ pose_valid pr = false.

(** Every handed-over value carries [valid = true]. *)
Definition valid_inv (s : State) : Prop :=
  (forall rr, roi_published s rr -> roi_valid rr = true)
  /\ (forall pr, pose_published s pr -> pose_valid pr = true).

(** The rectangle of a region-of-interest record lies within the frame
    the record refers to. *)
Definition roi_within (rr : ROIResult) : Prop :=
  rect_within (roi rr) (cols (frame (roi_data rr))) (rows (frame (roi_data rr))).

(** Frames in flight are well formed and handed-over rectangles lie
    within their frames. *)
Definition within_inv (s : State) : Prop :=
  (forall fd, cap_frame s = Some fd -> mat_wf (frame fd))
  /\ (forall fd, st_low s = Took fd -> mat_wf (frame fd))
  /\ (forall rr, roi_published s rr -> roi_within rr).

(** The flag is down and the two middle threads sleep, with nobody left
    who could wake them. *)
Definition stuck (s : State) : Prop :=
  running s = false
  /\ st_cap s <> CapPull
  /\ st_low s = Blocked
  /\ st_high s = Blocked.

(* ================================================================== *)
(** * Predicates on detections *)

(** Every coordinate lies between the sentinels of the scan. *)
Definition coord_bounded (q : Q) : Prop := (- big <= q /\ q <= big)%Q.

Definition coords_bounded (d : Detection) : Prop :=
  Forall (fun p => coord_bounded (fst p) /\ coord_bounded (snd p)) (corners d).



(** Every corner lies within the downsampled image the detector saw. *)
Definition coord_in (q : Q) (n : Z) : Prop := (0 <= q /\ q <= inject_Z n)%Q.

Definition corners_in_image (d : Detection) : Prop :=
  Forall (fun p => coord_in (fst p) LOW_W /\ coord_in (snd p) LOW_H) (corners d).

(** The value fits a 32-bit [int]. *)
Definition int_range (z : Z) : Prop := - 2 ^ 31 <= z < 2 ^ 31.

(* ================================================================== *)
(** * The padded bounding box, in the words of the spec *)

Definition min4 (a b c d : Q) : Q := Qmin (Qmin (Qmin a b) c) d.
Definition max4 (a b c d : Q) : Q := Qmax (Qmax (Qmax a b) c) d.

Definition corner_minx (d : Detection) : Q :=
  min4 (fst (p0 d)) (fst (p1 d)) (fst (p2 d)) (fst (p3 d)).
Definition corner_miny (d : Detection) : Q :=
  min4 (snd (p0 d)) (snd (p1 d)) (snd (p2 d)) (snd (p3 d)).
Definition corner_maxx (d : Detection) : Q :=
  max4 (fst (p0 d)) (fst (p1 d)) (fst (p2 d)) (fst (p3 d)).
Definition corner_maxy (d : Detection) : Q :=
  max4 (snd (p0 d)) (snd (p1 d)) (snd (p2 d)) (snd (p3 d)).




(* ================================================================== *)
(** * Sample frames, detections and schedules *)

(** A frame at half the sensor's resolution, and a matrix of the
    downsampled size. *)
Definition frame_full : FrameData := mkFrameData (mkMat 2028 1520) 1000.


(** A detection in the middle of the downsampled image, one far to its
    left, and one with corners between pixel centres. *)
Definition det_mid : Detection :=
  mkDetection (300, 200)%Q (340, 200)%Q (340, 240)%Q (300, 240)%Q.


Definition det_frac : Detection :=
  mkDetection (1 # 2, 1 # 2)%Q (9 # 4, 1 # 2)%Q (9 # 4, 9 # 4)%Q (1 # 2, 9 # 4)%Q.

(** A solver answer half a metre ahead, and one that reports failure and
    carries NaN. *)
Definition sol_good : Solve :=
  mkSolve true (0, 0, 0)%float (0, 0, 0.5)%float 0%float.

Definition sol_nan : Solve :=
  mkSolve false (nan, nan, nan) (nan, nan, nan) nan.

(** The capture thread stores frame after frame: each frame costs it two
    steps, the loop test and the pull followed by the store. *)
Fixpoint capture_all (fs : list FrameData) : list Event :=
  match fs with
  | [] => []
  | f :: fs' => RunCap None :: RunCap (Some f) :: capture_all fs'
  end.

(** The pose thread sleeps on its empty slot while the detection thread
    holds [frame_full]. *)
Definition sched_low_holds : list Event :=
  [RunHigh [] sol_good; RunCap None; RunCap (Some frame_full); RunLow []].

(** The pose thread holds a valid region of interest. *)
Definition sched_high_holds : list Event :=
  sched_low_holds ++ [RunLow [det_mid]; RunHigh [] sol_good].

(** One full cycle, after which the detection and pose threads go back to
    sleep on their empty slots and the user presses [q]. *)
Definition sched_quit : list Event :=
  [RunCap None; RunCap (Some frame_full);
   RunLow []; RunLow [det_mid];
   RunHigh [] sol_good; RunHigh [det_mid] sol_good;
   RunVis 0;
   RunLow []; RunHigh [] sol_good;
   RunVis key_q].

(* ================================================================== *)
(** * Predicates on schedules, and how far a thread is from leaving *)

(** The detector of the detection thread finds nothing in this step. *)
Definition low_finds_nothing (e : Event) : Prop :=
  match e with RunLow (_ :: _) => False | _ => True end.

(** The event is a step of thread [t]. *)
Definition runs_of (t : Stage) (e : Event) : bool :=
  match t, e with
  | Capture, RunCap _ => true
  | LowRes, RunLow _ => true
  | HighRes, RunHigh _ _ => true
  | Vis, RunVis _ => true
  | _, _ => false
  end.

Definition steps_of (t : Stage) (es : list Event) : nat :=
  length (filter (runs_of t) es).

(** No consumer is asleep. *)
Definition all_awake (s : State) : Prop :=
  st_low s <> Blocked /\ st_high s <> Blocked /\ st_vis s <> Blocked.

Definition all_done (s : State) : Prop :=
  st_cap s = CapDone /\ st_low s = Done /\ st_high s = Done /\ st_vis s = Done.

(** The number of own steps an awake thread needs to leave its loop once
    the flag is down: one to finish the cycle it is in, one for the loop
    test. *)
Definition rank_status {T : Type} (st : Status T) : nat :=
  match st with Took _ => 2 | Ready => 1 | Blocked => 1 | Done => 0 end.

Definition rank (t : Stage) (s : State) : nat :=
  match t with
  | Capture => match st_cap s with CapPull => 2 | CapHead => 1 | CapDone => 0 end
  | LowRes => rank_status (st_low s)
  | HighRes => rank_status (st_high s)
  | Vis => rank_status (st_vis s)
  end.

(** The pipeline runs, nothing has passed the detection thread, and the
    two threads behind it hold nothing. *)
Definition nothing_downstream (s : State) : Prop :=
  running s = true
  /\ roi_result s = None /\ pose_result s = None
  /\ (forall rr, st_high s <> Took rr)
  /\ (forall pr, st_vis s <> Took pr).

(** What [cv::Mat::operator()(const Rect&)] at line 210 asserts of the
    rectangle it crops to, and what keeps the rectangle drawn at line 285
    on the image. *)
Definition crop_ok (m : Mat) (r : Rect) : Prop :=
  0 <= x r /\ 0 <= width r /\ x r + width r <= cols m
  /\ 0 <= y r /\ 0 <= height r /\ y r + height r <= rows m.

(** Every handed-over rectangle, of a region of interest or of a pose,
    fits the frame its record refers to. *)
Definition fit_inv (s : State) : Prop :=
  (forall rr, roi_published s rr -> crop_ok (frame (roi_data rr)) (roi rr))
  /\ (forall pr, pose_published s pr -> crop_ok (frame (pose_data pr)) (pose_roi pr)).

(* ================================================================== *)
(** * Histories: what the camera delivered and what was displayed *)

(** [l1] is [l2] with some elements left out, order kept. *)
Inductive subseq {A : Type} : list A -> list A -> Prop :=
| subseq_nil : subseq [] []
| subseq_skip (a : A) (l1 l2 : list A) : subseq l1 l2 -> subseq l1 (a :: l2)
| subseq_keep (a : A) (l1 l2 : list A) : subseq l1 l2 -> subseq (a :: l1) (a :: l2).

(** The frame the capture thread stores in this step, if it stores one
    (lines 108-112). *)
Definition stored (s : State) (e : Event) : list FrameData :=
  match e, st_cap s with
  | RunCap (Some fd), CapPull => [fd]
  | _, _ => []
  end.

(** The frame the display thread draws on and shows in this step, if it
    shows one (lines 284-296). *)
Definition shown (s : State) (e : Event) : list FrameData :=
  match e, st_vis s with
  | RunVis _, Took pr => if pose_valid pr then [pose_data pr] else []
  | _, _ => []
  end.

(** What a per-step observation yields along a schedule. *)
Fixpoint trace {A : Type} (f : State -> Event -> list A)
    (s : State) (es : list Event) : list A :=
  match es with
  | [] => []
  | e :: es' => f s e ++ trace f (step s e) es'
  end.

Definition held {T : Type} (g : T -> FrameData) (st : Status T)
  : list FrameData :=
  match st with Took v => [g v] | _ => [] end.

Definition pending {T : Type} (g : T -> FrameData) (m : Mailbox T)
  : list FrameData :=
  match m with Some v => [g v] | None => [] end.

(** The frames inside the pipeline, the one nearest to the display
    first. *)
Definition in_flight (s : State) : list FrameData :=
  held pose_data (st_vis s) ++ pending pose_data (pose_result s)
  ++ held roi_data (st_high s) ++ pending roi_data (roi_result s)
  ++ held (fun fd => fd) (st_low s) ++ pending (fun fd => fd) (cap_frame s).

(** Every [int] value lines 166-171 compute on the way to the clipped
    rectangle: the four casts, the padded corner and extent, and the
    sums, maxima, minima and differences inside [operator&]. *)
Definition roi_ints (gray : Mat) (d : Detection) : list Z :=
  let b := bbox_of d in
  let sx := scale (cols gray) LOW_W in
  let sy := scale (rows gray) LOW_H in
  let a := roi_before_clip gray d in
  let f := mkRect 0 0 (cols gray) (rows gray) in
  let x1 := Z.max (x a) (x f) in
  let y1 := Z.max (y a) (y f) in
  [ Qtrunc (minx b * sx); Qtrunc (miny b * sy);
    Qtrunc ((maxx b - minx b) * sx); Qtrunc ((maxy b - miny b) * sy);
    2 * ROI_PAD; x a; y a; width a; height a;
    x1; y1;
    x a + width a; x f + width f; y a + height a; y f + height f;
    Z.min (x a + width a) (x f + width f);
    Z.min (y a + height a) (y f + height f);
    Z.min (x a + width a) (x f + width f) - x1;
    Z.min (y a + height a) (y f + height f) - y1 ].

(* ================================================================== *)
(** * Imshow helper *)

(** [cvRound]: the nearest integer, a tie going to the even one. *)
Definition cvRound (q : Q) : Z :=
  let f := Qfloor q in
  match (q - inject_Z f ?= 1 # 2)%Q with
  | Lt => f
  | Gt => f + 1
  | Eq => if Z.even f then f else f + 1
  end.

(** Modelled from the spec: [cv::resize] is OpenCV code, not part of this
    repository; the spec speaks of an image "scaled to fit a maximum
    viewport while preserving aspect ratio".  With an empty [dsize], as
    at line 72, OpenCV sizes the result as
    [Size(cvRound(cols * fx), cvRound(rows * fy))] and raises an error
    when that size is empty. *)
Definition resize (src : Mat) (fx fy : Q) : option Mat :=
  let w := cvRound (inject_Z (cols src) * fx) in
  let h := cvRound (inject_Z (rows src) * fy) in
  if (w <=? 0) || (h <=? 0) then None else Some (mkMat w h).

(** Lines 63-77: the matrix handed to [cv::imshow], or [None] when
    [cv::resize] raises.  The quotients are [double]s, taken here as
    exact rationals. *)
Definition imshowScaled (img : Mat) (maxW maxH : Z) : option Mat :=
  let scale := dmin (inject_Z maxW / inject_Z (cols img))
                    (inject_Z maxH / inject_Z (rows img)) in
  match (scale ?= 1)%Q with
  | Lt => resize img scale scale
  | _ => Some img
  end.

(** The default viewport of the declaration. *)
Definition imshow_maxW : Z := 1600.
Definition imshow_maxH : Z := 900.

(** A consumer that sleeps has nothing waiting in its slot. *)
Definition sleepers_have_empty_slots (s : State) : Prop :=
  (st_low s = Blocked -> cap_frame s = None)
  /\ (st_high s = Blocked -> roi_result s = None)
  /\ (st_vis s = Blocked -> pose_result s = None).


(** An image one pixel wide and four thousand high. *)
Definition mat_sliver : Mat := mkMat 1 4000.

(* ================================================================== *)
(** * The dashboard's data service ([gui/src/services/dataService.js]) *)

(** JavaScript functions and parsed JSON values are opaque here: a
    callback is known by a number, and so is a value. *)
Definition Callback : Type := nat.
Definition Json : Type := nat.

(** The strings handed to the status callback. *)
Inductive ConnStatus := connecting | connected | error | disconnected.

(** [WebSocket.readyState]. *)
Inductive ReadyState := CONNECTING | OPEN | CLOSING | CLOSED.

(** What leaves the module, in order: calls of the two callbacks, and
    calls into the browser.  Console output is not recorded. *)
Inductive Effect :=
| CallData (cb : Callback) (data : Json)
| CallStatus (cb : Callback) (st : ConnStatus)
| NewSocket (id : nat)
| CloseSocket (id : nat)
| Send (id : nat) (command : Json)
| SetTimeout
| SetInterval (id : nat)
| ClearInterval (id : nat).

Definition USE_MOCK_DATA : bool := false.

(** The module's variables; on the browser's side the number of pending
    reconnect timeouts, the intervals that are running and a counter for
    fresh sockets and intervals; and the effects so far. *)
Record Svc := mkSvc {
  dataCallback : option Callback;
  statusCallback : option Callback;
  mockInterval : option nat;
  ws : option nat;
  timers : nat;
  intervals : list nat;
  next_id : nat;
  effects : list Effect
}.

Definition svc_init : Svc := mkSvc None None None None 0 [] 0 [].

(** [if (statusCallback) statusCallback(st);] *)
Definition tell_status (st : ConnStatus) (s : Svc) : list Effect :=
  match statusCallback s with
  | Some cb => [CallStatus cb st]
  | None => []
  end.

(** Lines 66-98, up to the handlers, which are the events below. *)
Definition connectWebSocket (s : Svc) : Svc :=
  mkSvc (dataCallback s) (statusCallback s) (mockInterval s)
        (Some (next_id s)) (timers s) (intervals s) (S (next_id s))
        (effects s ++ tell_status connecting s ++ [NewSocket (next_id s)]).

(** Lines 101-111. *)
Definition startMockStream (s : Svc) : Svc :=
  mkSvc (dataCallback s) (statusCallback s) (Some (next_id s))
        (ws s) (timers s) (next_id s :: intervals s) (S (next_id s))
        (effects s ++ tell_status connected s ++ [SetInterval (next_id s)]).

(** Lines 114-125. *)
Definition connectToDataStream (onData onStatusChange : option Callback)
    (s : Svc) : Svc :=
  let s1 := mkSvc onData onStatusChange (mockInterval s) (ws s)
                  (timers s) (intervals s) (next_id s) (effects s) in
  if USE_MOCK_DATA then startMockStream s1 else connectWebSocket s1.

(** Lines 127-138. *)
Definition disconnectFromDataStream (s : Svc) : Svc :=
  let e1 := match mockInterval s with
            | Some i => [ClearInterval i]
            | None => []
            end in
  let e2 := match ws s with
            | Some k => [CloseSocket k]
            | None => []
            end in
  let live := match mockInterval s with
              | Some i => filter (fun j => negb (Nat.eqb i j)) (intervals s)
              | None => intervals s
              end in
  mkSvc None None None None (timers s) live (next_id s)
        (effects s ++ e1 ++ e2).

(** Lines 141-147; [readyState] is what the browser reports for the
    socket. *)
Definition sendCommand (command : Json) (readyState : ReadyState) (s : Svc)
  : Svc :=
  match ws s, readyState with
  | Some k, OPEN =>
      mkSvc (dataCallback s) (statusCallback s) (mockInterval s) (ws s)
            (timers s) (intervals s) (next_id s)
            (effects s ++ [Send k command])
  | _, _ => s
  end.

(** Calls from the application, and what the browser calls back: the
    four socket handlers, a reconnect timeout that fires, and a tick of
    an interval.  [parsed] is what [JSON.parse] makes of the message,
    [None] when it throws; [mock] is the value [generateMockData]
    returns.  The application's callbacks are taken to return
    normally. *)
Inductive DsEvent :=
| Connect (onData onStatusChange : option Callback)
| Disconnect
| Command (command : Json) (readyState : ReadyState)
| OnOpen (sock : nat)
| OnMessage (sock : nat) (parsed : option Json)
| OnError (sock : nat)
| OnClose (sock : nat)
| TimerFires
| IntervalTick (id : nat) (mock : Json).

Definition add_effects (es : list Effect) (s : Svc) : Svc :=
  mkSvc (dataCallback s) (statusCallback s) (mockInterval s) (ws s)
        (timers s) (intervals s) (next_id s) (effects s ++ es).

Definition ds_step (s : Svc) (e : DsEvent) : Svc :=
  match e with
  | Connect onData onStatusChange => connectToDataStream onData onStatusChange s
  | Disconnect => disconnectFromDataStream s
  | Command command readyState => sendCommand command readyState s
  | OnOpen _ => add_effects (tell_status connected s) s
  | OnMessage _ parsed =>
      match parsed, dataCallback s with
      | Some data, Some cb => add_effects [CallData cb data] s
      | _, _ => s
      end
  | OnError _ => add_effects (tell_status error s) s
  | OnClose _ =>
      mkSvc (dataCallback s) (statusCallback s) (mockInterval s) (ws s)
            (S (timers s)) (intervals s) (next_id s)
            (effects s ++ tell_status disconnected s ++ [SetTimeout])
  | TimerFires =>
      match timers s with
      | O => s
      | S n =>
          let s1 := mkSvc (dataCallback s) (statusCallback s) (mockInterval s)
                          (ws s) n (intervals s) (next_id s) (effects s) in
          if negb USE_MOCK_DATA then connectWebSocket s1 else s1
      end
  | IntervalTick id mock =>
      if existsb (Nat.eqb id) (intervals s) then
        match dataCallback s with
        | Some cb => add_effects [CallData cb mock] s
        | None => s
        end
      else s
  end.

Definition ds_run (s : Svc) (es : list DsEvent) : Svc := fold_left ds_step es s.

(** The effect is a call of one of the application's callbacks. *)
Definition is_callback (e : Effect) : bool :=
  match e with CallData _ _ | CallStatus _ _ => true | _ => false end.

Definition is_connect (e : DsEvent) : bool :=
  match e with Connect _ _ => true | _ => false end.

Definition is_api_call (e : DsEvent) : bool :=
  match e with Connect _ _ | Disconnect => true | _ => false end.

Definition is_close (e : DsEvent) : bool :=
  match e with OnClose _ => true | _ => false end.

Definition count_events (f : DsEvent -> bool) (es : list DsEvent) : nat :=
  length (filter f es).

(** The values of the messages that parsed, in order. *)
Definition parsed_messages (es : list DsEvent) : list Json :=
  flat_map (fun e => match e with
                     | OnMessage _ (Some data) => [data]
                     | _ => []
                     end) es.

(** The values handed to the data callback, in order. *)
Definition data_calls (l : list Effect) : list (Callback * Json) :=
  flat_map (fun e => match e with
                     | CallData cb data => [(cb, data)]
                     | _ => []
                     end) l.

(** The sockets opened, in order. *)
Definition sockets_opened (l : list Effect) : list nat :=
  flat_map (fun e => match e with NewSocket k => [k] | _ => [] end) l.

(* ================================================================== *)
(** * The hand-off: the latest value wins *)

Section SlotFacts.
Context {T : Type}.

Lemma publish_all_last (vs : list T) (v : T) (m : Mailbox T) :
  fold_left (fun m v => publish v m) (vs ++ [v]) m = Some v.
Proof.
  rewrite fold_left_app. reflexivity.
Qed.

End SlotFacts.

Lemma capture_all_state (fs : list FrameData) : forall s,
  running s = true -> st_cap s = CapHead -> st_low s = Ready ->
  let s' := run s (capture_all fs) in
  running s' = true /\ st_cap s' = CapHead /\ st_low s' = Ready
  /\ cap_frame s' = fold_left (fun m v => publish v m) fs (cap_frame s).
Proof.
  induction fs as [|f fs IH]; intros s Hr Hc Hl; cbv zeta.
  - simpl. auto.
  - change (run s (capture_all (f :: fs)))
      with (run (step (step s (RunCap None)) (RunCap (Some f))) (capture_all fs)).
    set (s2 := step (step s (RunCap None)) (RunCap (Some f))).
    assert (H2 : running s2 = true /\ st_cap s2 = CapHead /\ st_low s2 = Ready
                 /\ cap_frame s2 = publish f (cap_frame s)).
    { subst s2. unfold step, captureThread. rewrite Hc, Hr. simpl.
      rewrite Hl. auto. }
    destruct H2 as (Hr2 & Hc2 & Hl2 & Hf2).
    specialize (IH s2 Hr2 Hc2 Hl2). cbv zeta in IH.
    destruct IH as (A & B & C & D).
    repeat split; try assumption.
    rewrite D, Hf2. reflexivity.
Qed.

(** The same on the first slot of the pipeline: the capture thread stores
    the frames [fs] and then [f] while the detection thread is away; the
    detection thread then takes [f] and leaves the slot empty. *)
Lemma cap_slot_latest_wins (s : State) (fs : list FrameData) (f : FrameData)
    (dets : list Detection) :
  running s = true -> st_cap s = CapHead -> st_low s = Ready ->
  let s' := run s (capture_all (fs ++ [f]) ++ [RunLow dets]) in
  st_low s' = Took f /\ cap_frame s' = None.
Proof.
  intros Hr Hc Hl. cbv zeta. unfold run. rewrite fold_left_app.
  fold (run s (capture_all (fs ++ [f]))).
  destruct (capture_all_state (fs ++ [f]) s Hr Hc Hl) as (A & B & C & D).
  rewrite publish_all_last in D.
  simpl. unfold lowResThread. rewrite C, A, D. simpl. auto.
Qed.

(* ================================================================== *)
(** * Invariants of the pipeline *)

Lemma notify_one_took {T : Type} (st : Status T) (v : T) :
  notify_one st = Took v -> st = Took v.
Proof. destruct st; simpl; congruence. Qed.

Lemma waitAndTake_cases {T : Type} (r : bool) (m : Mailbox T) st m' :
  waitAndTake r m = (st, m') ->
  (st = Done /\ m' = m) \/ (st = Blocked /\ m = None /\ m' = None)
  \/ (exists v, m = Some v /\ st = Took v /\ m' = None).
Proof.
  unfold waitAndTake. destruct r; simpl.
  - destruct m as [v|]; intros [= <- <-]; eauto 6.
  - intros [= <- <-]. auto.
Qed.

Lemma step_valid_inv (s : State) (e : Event) :
  valid_inv s -> valid_inv (step s e).
Proof.
  destruct s as [r cf rs ps sc sl sh sv].
  unfold valid_inv, roi_published, pose_published. simpl.
  intros [Hr Hp].
  destruct e as [sample|dets|dets sol|key|t]; simpl;
    unfold captureThread, lowResThread, highResThread, visThread, spurious;
    simpl.
  - destruct sc; [| destruct sample |]; simpl; auto.
  - destruct sl as [| |fd|]; simpl; auto.
    + destruct (waitAndTake r cf) as [st m]; simpl; auto.
    + destruct dets as [|det ?]; simpl; auto. split; auto.
      intros rr [H|H].
      * injection H as <-. reflexivity.
      * apply notify_one_took in H. auto.
  - destruct sh as [| |rr0|]; simpl; auto.
    + destruct (waitAndTake r rs) as [st m] eqn:E; simpl.
      apply waitAndTake_cases in E. split; auto.
      intros rr [H|H];
        destruct E as [[-> ->]|[[-> [-> ->]]|[v [-> [-> ->]]]]];
        try discriminate; auto.
      injection H as <-. auto.
    + destruct (negb (roi_valid rr0)); simpl.
      * split; auto. intros rr [H|H]; [auto|discriminate].
      * destruct dets as [|? ?]; simpl.
        -- split; auto. intros rr [H|H]; [auto|discriminate].
        -- split.
           ++ intros rr [H|H]; [auto|discriminate].
           ++ intros pr [H|H].
              ** injection H as <-. reflexivity.
              ** apply notify_one_took in H. auto.
  - destruct sv as [| |pr0|]; simpl; auto.
    + destruct (waitAndTake r ps) as [st m] eqn:E; simpl.
      apply waitAndTake_cases in E. split; auto.
      intros pr [H|H];
        destruct E as [[-> ->]|[[-> [-> ->]]|[v [-> [-> ->]]]]];
        try discriminate; auto.
      injection H as <-. auto.
    + destruct (negb (pose_valid pr0)); simpl;
        (split; auto; intros pr [H|H]; [auto|discriminate]).
  - destruct t; simpl; auto; split; auto.
    + intros rr [H|H]; [auto|]. apply notify_one_took in H. auto.
    + intros pr [H|H]; [auto|]. apply notify_one_took in H. auto.
Qed.

Lemma run_valid_inv (es : list Event) : forall s,
  valid_inv s -> valid_inv (run s es).
Proof.
  induction es as [|e es IH]; intros s H; simpl; auto.
  apply IH, step_valid_inv, H.
Qed.

Lemma init_valid_inv : valid_inv init.
Proof.
  split; intros v [H|H]; discriminate.
Qed.

(** C10. In every state the pipeline can reach, whatever sits in the
    second or third slot, or has been taken from it, carries
    [valid = true]; so neither consumer is ever about to take its
    [if (!x->valid) continue;] branch. *)
Theorem published_results_are_valid (es : list Event) :
  let s := run init es in
  (forall rr, roi_published s rr -> roi_valid rr = true)
  /\ (forall pr, pose_published s pr -> pose_valid pr = true)
  /\ ~ high_skips_invalid s
  /\ ~ vis_skips_invalid s.
Proof.
  cbv zeta. destruct (run_valid_inv es init init_valid_inv) as [Hr Hp].
  repeat split; auto.
  - intros (rr & Ht & Hv). rewrite (Hr rr) in Hv; [discriminate|].
    right. exact Ht.
  - intros (pr & Ht & Hv). rewrite (Hp pr) in Hv; [discriminate|].
    right. exact Ht.
Qed.

(* ================================================================== *)
(** * Clipping keeps the rectangle within the frame *)

Lemma rect_and_within (a : Rect) (w h : Z) :
  0 <= w -> 0 <= h -> rect_within (rect_and a (mkRect 0 0 w h)) w h.
Proof.
  intros Hw Hh. unfold rect_and, rect_within. simpl.
  destruct (_ || _) eqn:E; simpl.
  - lia.
  - apply orb_false_elim in E. destruct E as [E1 E2].
    apply Z.leb_gt in E1. apply Z.leb_gt in E2. lia.
Qed.

Lemma compute_roi_within (gray : Mat) (d : Detection) :
  mat_wf gray -> rect_within (compute_roi gray d) (cols gray) (rows gray).
Proof.
  intros [Hc Hr]. apply rect_and_within; assumption.
Qed.

Lemma step_within_inv (s : State) (e : Event) :
  event_wf e -> within_inv s -> within_inv (step s e).
Proof.
  destruct s as [r cf rs ps sc sl sh sv].
  unfold within_inv, roi_published. simpl.
  intros He (Hc & Hl & Hr).
  destruct e as [sample|dets|dets sol|key|t]; simpl;
    unfold captureThread, lowResThread, highResThread, visThread, spurious;
    simpl.
  - destruct sc; [| destruct sample as [fd0|] |]; simpl; auto.
    split; [|split].
    + intros fd [= <-]. exact He.
    + intros fd H. apply notify_one_took in H. auto.
    + exact Hr.
  - destruct sl as [| |fd0|]; simpl; auto.
    + destruct (waitAndTake r cf) as [st m] eqn:E; simpl.
      apply waitAndTake_cases in E.
      destruct E as [[-> ->]|[[-> [-> ->]]|[v [-> [-> ->]]]]];
        (split; [|split]); auto; try discriminate.
      intros fd [= <-]. auto.
    + destruct dets as [|det ?]; simpl.
      * split; [|split]; auto. discriminate.
      * split; [|split]; auto; try discriminate.
        intros rr [H|H].
        -- injection H as <-. unfold roi_within. simpl.
           apply compute_roi_within. auto.
        -- apply notify_one_took in H. auto.
  - destruct sh as [| |rr0|]; simpl; auto.
    + destruct (waitAndTake r rs) as [st m] eqn:E; simpl.
      apply waitAndTake_cases in E.
      destruct E as [[-> ->]|[[-> [-> ->]]|[v [-> [-> ->]]]]];
        (split; [|split]); auto.
      all: intros rr [H|H]; try discriminate; auto.
      injection H as <-. auto.
    + destruct (negb (roi_valid rr0)); [|destruct dets]; simpl;
        (split; [|split]; auto; intros rr [H|H]; [auto|discriminate]).
  - destruct sv as [| |pr0|]; simpl; auto.
    + destruct (waitAndTake r ps) as [st m]; simpl. auto.
    + destruct (negb (pose_valid pr0)); simpl; auto.
  - destruct t; simpl; auto; (split; [|split]); auto.
    + intros fd H. apply notify_one_took in H. auto.
    + intros rr [H|H]; [auto|]. apply notify_one_took in H. auto.
Qed.

Lemma run_within_inv (es : list Event) : forall s,
  Forall event_wf es -> within_inv s -> within_inv (run s es).
Proof.
  induction es as [|e es IH]; intros s Hes H; simpl; auto.
  inversion Hes; subst. apply IH; auto. apply step_within_inv; auto.
Qed.

Lemma init_within_inv : within_inv init.
Proof.
  split; [|split]; try discriminate. intros v [H|H]; discriminate.
Qed.

(** C3. Whatever the camera and the detector answer, every region of
    interest the detection thread has handed over (still in the slot, or
    taken by the pose thread) with [valid = true] has its rectangle
    inside the frame it refers to:
    [0 <= x], [0 <= y], [x + w <= cols], [y + h <= rows]. *)
Theorem published_roi_within_frame (es : list Event) (rr : ROIResult) :
  Forall event_wf es ->
  roi_published (run init es) rr ->
  roi_valid rr = true ->
  0 <= x (roi rr) /\ 0 <= y (roi rr)
  /\ x (roi rr) + width (roi rr) <= cols (frame (roi_data rr))
  /\ y (roi rr) + height (roi rr) <= rows (frame (roi_data rr)).
Proof.
  intros Hes Hp _.
  destruct (run_within_inv es init Hes init_within_inv) as (_ & _ & H).
  exact (H rr Hp).
Qed.

(** A schedule that brings one region of interest into the second slot. *)
Lemma published_roi_within_frame_witness :
  let es := [RunCap None; RunCap (Some frame_full); RunLow []; RunLow [det_mid]] in
  let rr := mkROIResult frame_full (mkRect 870 553 286 286) true in
  0 <= x (roi rr) /\ 0 <= y (roi rr)
  /\ x (roi rr) + width (roi rr) <= cols (frame (roi_data rr))
  /\ y (roi rr) + height (roi rr) <= rows (frame (roi_data rr)).
Proof.
  apply (published_roi_within_frame
           [RunCap None; RunCap (Some frame_full); RunLow []; RunLow [det_mid]]).
  - repeat constructor; simpl; lia.
  - left. vm_compute. reflexivity.
  - reflexivity.
Defined.

(* ================================================================== *)
(** * Dropped and published cycles of the detection thread *)

(** C7. When the detector returns no detection for the frame the
    detection thread holds, the thread goes back to the top of its loop:
    the second slot is left as it was, nobody is woken, and a pose thread
    that sleeps on its empty slot keeps sleeping, whatever it is
    scheduled with. *)
Theorem no_detection_no_roi (s : State) (fd : FrameData) :
  st_low s = Took fd ->
  let s' := step s (RunLow []) in
  roi_result s' = roi_result s
  /\ st_high s' = st_high s
  /\ pose_result s' = pose_result s
  /\ st_low s' = Ready
  /\ (st_high s = Blocked ->
      forall dets sol, step s' (RunHigh dets sol) = s').
Proof.
  intros Hl. cbv zeta. simpl. unfold lowResThread. rewrite Hl. simpl.
  repeat split.
  intros Hh dets sol. unfold highResThread. simpl. rewrite Hh. reflexivity.
Qed.

Lemma no_detection_no_roi_witness :
  let s := run init sched_low_holds in
  let s' := step s (RunLow []) in
  roi_result s' = roi_result s
  /\ st_high s' = st_high s
  /\ pose_result s' = pose_result s
  /\ st_low s' = Ready
  /\ (st_high s = Blocked ->
      forall dets sol, step s' (RunHigh dets sol) = s').
Proof.
  apply (no_detection_no_roi (run init sched_low_holds) frame_full).
  reflexivity.
Defined.





(* ================================================================== *)
(** * The pose thread publishes whatever the solver returns *)

(** C6, as stated, fails: the solver reports failure and returns NaN, and
    the pose thread stores a record with [valid = true] in the third
    slot. *)
Lemma unusable_pose_still_published :
  let s := run init sched_high_holds in
  (exists rr, st_high s = Took rr /\ roi_valid rr = true)
  /\ solve_usable sol_nan = false
  /\ pose_result s = None
  /\ (exists pr, pose_result (step s (RunHigh [det_mid] sol_nan)) = Some pr
                 /\ pose_valid pr = true
                 /\ vec_finite (tvec pr) = false).
Proof.
  cbv zeta. split; [|split; [|split]].
  - eexists. split; vm_compute; reflexivity.
  - vm_compute. reflexivity.
  - vm_compute. reflexivity.
  - eexists. split; [vm_compute; reflexivity|]. split; vm_compute; reflexivity.
Qed.

(** C6, amended. The pose thread does not look at what the solver
    returned: whenever it holds a valid region of interest and the
    detector returns at least one detection, it stores a record with
    [valid = true], the solver's translation and the yaw derived from the
    solver's rotation in the third slot, usable or not. *)
Theorem pose_published_unchecked
    (s : State) (rr : ROIResult) (det : Detection) (dets : list Detection)
    (sol : Solve) :
  st_high s = Took rr ->
  roi_valid rr = true ->
  pose_result (step s (RunHigh (det :: dets) sol))
  = Some (mkPoseResult (roi_data rr) (pnp_tvec sol) (yaw_deg sol) (roi rr) true).
Proof.
  intros Hh Hv. simpl. unfold highResThread. rewrite Hh, Hv. reflexivity.
Qed.

Lemma pose_published_unchecked_witness :
  pose_result (step (run init sched_high_holds) (RunHigh (det_mid :: []) sol_nan))
  = Some (mkPoseResult frame_full (pnp_tvec sol_nan) (yaw_deg sol_nan)
                       (mkRect 870 553 286 286) true).
Proof.
  apply (pose_published_unchecked (run init sched_high_holds)
           (mkROIResult frame_full (mkRect 870 553 286 286) true)
           det_mid [] sol_nan).
  - vm_compute. reflexivity.
  - reflexivity.
Defined.

(* ================================================================== *)
(** * Detector settings *)



(* ================================================================== *)
(** * Quitting *)

(** [running = false] at line 299 is all the quit path does: no slot and
    no other thread's status changes. *)
Lemma quit_only_clears_flag (s : State) (pr : PoseResult) :
  st_vis s = Took pr -> pose_valid pr = true ->
  step s (RunVis key_q)
  = mkState false (cap_frame s) (roi_result s) (pose_result s)
            (st_cap s) (st_low s) (st_high s) Ready.
Proof.
  intros Hv Hp. simpl. unfold visThread. rewrite Hv, Hp. reflexivity.
Qed.

(** A consumer that is awake when the flag goes down leaves its loop at
    its next step; so does one that is woken afterwards. *)
Lemma awake_consumer_stops {T : Type} (m : Mailbox T) :
  waitAndTake false m = (Done, m).
Proof. reflexivity. Qed.

Lemma woken_low_stops (s : State) (dets : list Detection) :
  running s = false -> st_low s = Blocked ->
  st_low (step (step s (Spurious LowRes)) (RunLow dets)) = Done.
Proof.
  intros Hr Hl. simpl. unfold lowResThread, spurious. simpl.
  rewrite Hl, Hr. reflexivity.
Qed.

Lemma sched_quit_stuck : stuck (run init sched_quit).
Proof.
  vm_compute. repeat split. discriminate.
Qed.

Lemma step_stuck (s : State) (e : Event) :
  is_spurious e = false -> stuck s -> stuck (step s e).
Proof.
  destruct s as [r cf rs ps sc sl sh sv]. unfold stuck. simpl.
  intros He (-> & Hc & -> & ->).
  destruct e as [sample|dets|dets sol|key|t]; try discriminate; simpl.
  - unfold captureThread. simpl.
    destruct sc; simpl; repeat split; try discriminate; congruence.
  - repeat split; assumption.
  - repeat split; assumption.
  - unfold visThread. simpl.
    destruct sv as [| |pr|]; simpl; try (repeat split; assumption).
    destruct (negb (pose_valid pr)); simpl; [repeat split; assumption|].
    destruct (key =? key_q); repeat split; assumption.
Qed.

Lemma run_stuck (es : list Event) : forall s,
  no_spurious es = true -> stuck s -> stuck (run s es).
Proof.
  induction es as [|e es IH]; intros s Hes H; simpl; auto.
  simpl in Hes. apply andb_prop in Hes. destruct Hes as [He Hes].
  apply IH; auto. apply step_stuck; auto.
  destruct (is_spurious e); [discriminate|reflexivity].
Qed.

(** C1 on the code. After [sched_quit] the flag is down while the
    detection and pose threads sleep in [cv.wait]; whatever steps the
    threads are given afterwards, short of a wake-up nobody issues, both
    stay asleep and never leave their loops. *)
Theorem shutdown_leaves_waiters_blocked (es : list Event) :
  no_spurious es = true ->
  let s := run (run init sched_quit) es in
  running s = false /\ st_low s = Blocked /\ st_high s = Blocked.
Proof.
  intros Hes. cbv zeta.
  destruct (run_stuck es _ Hes sched_quit_stuck) as (A & _ & B & C).
  auto.
Qed.

Lemma shutdown_leaves_waiters_blocked_witness :
  let s := run (run init sched_quit)
               [RunCap None; RunLow []; RunHigh [] sol_good; RunVis 0] in
  running s = false /\ st_low s = Blocked /\ st_high s = Blocked.
Proof.
  apply (shutdown_leaves_waiters_blocked
           [RunCap None; RunLow []; RunHigh [] sol_good; RunVis 0]).
  reflexivity.
Defined.

(* ================================================================== *)
(** * The region of interest at unit scale *)

Lemma Qtrunc_floor_ceiling (q : Q) :
  Qtrunc q = if 0 <=? Qnum q then Qfloor q else Qceiling q.
Proof.
  destruct q as [n d]. unfold Qtrunc, Qceiling, Qfloor. simpl.
  destruct (0 <=? n) eqn:E.
  - apply Z.leb_le in E. apply Z.quot_div_nonneg; lia.
  - apply Z.leb_gt in E.
    rewrite <- (Z.opp_involutive n) at 1.
    rewrite Z.quot_opp_l by lia.
    rewrite Z.quot_div_nonneg by lia. reflexivity.
Qed.

Lemma Qnum_nonneg (q : Q) : 0 <= Qnum q <-> (0 <= q)%Q.
Proof.
  destruct q as [n d]. unfold Qle. simpl. lia.
Qed.



Lemma dmin_Qmin (a b : Q) : dmin a b = Qmin a b.
Proof.
  unfold dmin, Qmin, GenericMinMax.gmin.
  rewrite <- (Qcompare_antisym a b). destruct (a ?= b)%Q; reflexivity.
Qed.

Lemma dmax_Qmax (a b : Q) : dmax a b = Qmax a b.
Proof.
  unfold dmax, Qmax, GenericMinMax.gmax. destruct (a ?= b)%Q; reflexivity.
Qed.

Lemma bbox_of_fields (d : Detection) :
  minx (bbox_of d)
  = Qmin (Qmin (Qmin (Qmin big (fst (p0 d))) (fst (p1 d))) (fst (p2 d))) (fst (p3 d))
  /\ miny (bbox_of d)
  = Qmin (Qmin (Qmin (Qmin big (snd (p0 d))) (snd (p1 d))) (snd (p2 d))) (snd (p3 d))
  /\ maxx (bbox_of d)
  = Qmax (Qmax (Qmax (Qmax (- big) (fst (p0 d))) (fst (p1 d))) (fst (p2 d))) (fst (p3 d))
  /\ maxy (bbox_of d)
  = Qmax (Qmax (Qmax (Qmax (- big) (snd (p0 d))) (snd (p1 d))) (snd (p2 d))) (snd (p3 d)).
Proof.
  unfold bbox_of, corners. simpl. rewrite !dmin_Qmin, !dmax_Qmax. auto.
Qed.

Lemma bbox_of_bounded (d : Detection) :
  coords_bounded d ->
  (minx (bbox_of d) == corner_minx d /\ miny (bbox_of d) == corner_miny d
   /\ maxx (bbox_of d) == corner_maxx d /\ maxy (bbox_of d) == corner_maxy d)%Q.
Proof.
  intros H. unfold coords_bounded, corners in H.
  destruct (Forall_inv H) as [[Hlx Hux] [Hly Huy]].
  destruct (bbox_of_fields d) as (-> & -> & -> & ->).
  unfold corner_minx, corner_miny, corner_maxx, corner_maxy, min4, max4.
  repeat split.
  - rewrite (Q.min_r big (fst (p0 d))) by assumption. reflexivity.
  - rewrite (Q.min_r big (snd (p0 d))) by assumption. reflexivity.
  - rewrite (Q.max_r (- big) (fst (p0 d))) by assumption. reflexivity.
  - rewrite (Q.max_r (- big) (snd (p0 d))) by assumption. reflexivity.
Qed.










(* ================================================================== *)
(** * Corners inside the downsampled image *)

Lemma Qtrunc_nonneg (q : Q) : (0 <= q)%Q -> 0 <= Qtrunc q.
Proof.
  intros H. rewrite Qtrunc_floor_ceiling.
  apply Qnum_nonneg in H. apply Z.leb_le in H. rewrite H.
  apply Z.leb_le, Qnum_nonneg in H.
  rewrite <- (Qfloor_Z 0). apply Qfloor_resp_le. exact H.
Qed.

Lemma Qtrunc_le_Z (q : Q) (z : Z) :
  (0 <= q)%Q -> (q <= inject_Z z)%Q -> Qtrunc q <= z.
Proof.
  intros H0 Hz. rewrite Qtrunc_floor_ceiling.
  apply Qnum_nonneg in H0. apply Z.leb_le in H0. rewrite H0.
  rewrite <- (Qfloor_Z z). apply Qfloor_resp_le. exact Hz.
Qed.

Lemma scale_bounds (q : Q) (full low : Z) :
  0 < low -> 0 <= full -> (0 <= q)%Q -> (q <= inject_Z low)%Q ->
  (0 <= q * scale full low /\ q * scale full low <= inject_Z full)%Q.
Proof.
  intros Hl Hf H0 Hq. unfold scale.
  assert (Hl' : (0 < inject_Z low)%Q) by (unfold Qlt; simpl; lia).
  assert (Hf' : (0 <= inject_Z full)%Q) by (unfold Qle; simpl; lia).
  assert (Hs : (0 <= inject_Z full / inject_Z low)%Q).
  { apply Qle_shift_div_l; [exact Hl'|]. lra. }
  split.
  - apply Qmult_le_0_compat; assumption.
  - apply Qle_trans with (inject_Z low * (inject_Z full / inject_Z low))%Q.
    + apply Qmult_le_compat_r; assumption.
    + rewrite Qmult_div_r; [apply Qle_refl|]. lra.
Qed.

Lemma bbox_in_image (d : Detection) :
  corners_in_image d ->
  (0 <= minx (bbox_of d) /\ minx (bbox_of d) <= maxx (bbox_of d)
   /\ maxx (bbox_of d) <= inject_Z LOW_W
   /\ 0 <= miny (bbox_of d) /\ miny (bbox_of d) <= maxy (bbox_of d)
   /\ maxy (bbox_of d) <= inject_Z LOW_H)%Q.
Proof.
  unfold corners_in_image, corners, coord_in. intros H.
  repeat match goal with
         | H : Forall _ (_ :: _) |- _ =>
             let A := fresh "A" in let B := fresh "B" in
             pose proof (Forall_inv H) as [A B];
             apply Forall_inv_tail in H
         end.
  destruct (bbox_of_fields d) as (-> & -> & -> & ->).
  assert (Hb : (0 <= big)%Q) by (vm_compute; discriminate).
  assert (Hw : (- big <= inject_Z LOW_W)%Q) by (vm_compute; discriminate).
  assert (Hh : (- big <= inject_Z LOW_H)%Q) by (vm_compute; discriminate).
  repeat split.
  - repeat apply Q.min_glb; tauto.
  - eapply Qle_trans; [apply Q.le_min_l|].
    eapply Qle_trans; [apply Q.le_min_l|].
    eapply Qle_trans; [apply Q.le_min_l|].
    eapply Qle_trans; [apply Q.le_min_r|].
    eapply Qle_trans; [|apply Q.le_max_l].
    eapply Qle_trans; [|apply Q.le_max_l].
    eapply Qle_trans; [|apply Q.le_max_l].
    apply Q.le_max_r.
  - repeat apply Q.max_lub; tauto.
  - repeat apply Q.min_glb; tauto.
  - eapply Qle_trans; [apply Q.le_min_l|].
    eapply Qle_trans; [apply Q.le_min_l|].
    eapply Qle_trans; [apply Q.le_min_l|].
    eapply Qle_trans; [apply Q.le_min_r|].
    eapply Qle_trans; [|apply Q.le_max_l].
    eapply Qle_trans; [|apply Q.le_max_l].
    eapply Qle_trans; [|apply Q.le_max_l].
    apply Q.le_max_r.
  - repeat apply Q.max_lub; tauto.
Qed.

(** With the corners inside the downsampled image, the four [int]s that
    line 166-170 compute are bounded by the frame's dimensions. *)
Lemma roi_before_clip_bounds (gray : Mat) (d : Detection) :
  mat_wf gray -> corners_in_image d ->
  let r := roi_before_clip gray d in
  - ROI_PAD <= x r <= cols gray - ROI_PAD
  /\ - ROI_PAD <= y r <= rows gray - ROI_PAD
  /\ 2 * ROI_PAD <= width r <= cols gray + 2 * ROI_PAD
  /\ 2 * ROI_PAD <= height r <= rows gray + 2 * ROI_PAD.
Proof.
  intros [Hc Hr] Hd. cbv zeta.
  destruct (bbox_in_image d Hd) as (A & B & C & D & E & F).
  unfold roi_before_clip, roi_scaled. cbv zeta. cbn [x y width height].
  assert (Wpos : 0 < LOW_W) by reflexivity.
  assert (Hpos : 0 < LOW_H) by reflexivity.
  destruct (scale_bounds (minx (bbox_of d)) (cols gray) LOW_W) as [X0 X1];
    try assumption; try lra.
  destruct (scale_bounds (miny (bbox_of d)) (rows gray) LOW_H) as [Y0 Y1];
    try assumption; try lra.
  destruct (scale_bounds (maxx (bbox_of d) - minx (bbox_of d)) (cols gray) LOW_W)
    as [W0 W1]; try assumption; try lra.
  destruct (scale_bounds (maxy (bbox_of d) - miny (bbox_of d)) (rows gray) LOW_H)
    as [H0 H1]; try assumption; try lra.
  pose proof (Qtrunc_nonneg _ X0). pose proof (Qtrunc_le_Z _ _ X0 X1).
  pose proof (Qtrunc_nonneg _ Y0). pose proof (Qtrunc_le_Z _ _ Y0 Y1).
  pose proof (Qtrunc_nonneg _ W0). pose proof (Qtrunc_le_Z _ _ W0 W1).
  pose proof (Qtrunc_nonneg _ H0). pose proof (Qtrunc_le_Z _ _ H0 H1).
  unfold ROI_PAD. lia.
Qed.

(** So clipping cannot collapse the rectangle of such a detection on a
    frame that has pixels: the case C4 speaks of needs corners the
    detector places well outside the image it was given. *)
Lemma in_image_roi_not_empty (gray : Mat) (d : Detection) :
  0 < cols gray -> 0 < rows gray -> corners_in_image d ->
  rect_empty (compute_roi gray d) = false.
Proof.
  intros Hc Hr Hd.
  assert (Hwf : mat_wf gray) by (split; lia).
  pose proof (roi_before_clip_bounds gray d Hwf Hd) as Hb. cbv zeta in Hb.
  unfold compute_roi, rect_and. cbn [x y width height].
  set (r := roi_before_clip gray d) in *.
  unfold ROI_PAD in Hb.
  match goal with
  | |- context [if (?w <=? 0) || (?h <=? 0) then _ else _] =>
      assert (Hw : (w <=? 0) = false) by (apply Z.leb_gt; lia);
      assert (Hh : (h <=? 0) = false) by (apply Z.leb_gt; lia)
  end.
  rewrite Hw, Hh. unfold rect_empty. cbn [orb width height].
  rewrite Hw, Hh. reflexivity.
Qed.

(** And every [int] on the way fits 32 bits for frames up to [2^29]
    pixels a side. *)
Lemma roi_ints_in_range (gray : Mat) (d : Detection) :
  mat_wf gray -> cols gray <= 2 ^ 29 -> rows gray <= 2 ^ 29 ->
  corners_in_image d ->
  let r := roi_before_clip gray d in
  int_range (x r + ROI_PAD) /\ int_range (x r)
  /\ int_range (y r + ROI_PAD) /\ int_range (y r)
  /\ int_range (width r - 2 * ROI_PAD) /\ int_range (width r)
  /\ int_range (height r - 2 * ROI_PAD) /\ int_range (height r)
  /\ int_range (x r + width r) /\ int_range (y r + height r).
Proof.
  intros Hwf Hc Hr Hd. cbv zeta.
  pose proof (roi_before_clip_bounds gray d Hwf Hd) as Hb. cbv zeta in Hb.
  destruct Hwf as [Hc0 Hr0].
  unfold int_range, ROI_PAD in *.
  change (2 ^ 31) with 2147483648. change (2 ^ 29) with 536870912 in *.
  lia.
Qed.

(* ================================================================== *)
(** * The yaw at the ends of atan2's range *)

(** [atan2] returns values from [-pi] to [pi], both included: by the C
    standard's floating-point annex [atan2(-0.0, x)] is [-pi] for
    negative [x].  At these two results lines 245-246 evaluate, in
    binary64, to exactly [-180] and [180]. *)
Lemma yaw_deg_at_pi (ok : bool) (r t : Vec3d) :
  yaw_deg (mkSolve ok r t (- CV_PI)) = (-180)%float
  /\ yaw_deg (mkSolve ok r t CV_PI) = 180%float.
Proof.
  split; vm_compute; reflexivity.
Qed.

(* ================================================================== *)
(** * The flag: who clears it, and what follows *)

Lemma step_keeps_flag_down (s : State) (e : Event) :
  running s = false -> running (step s e) = false.
Proof.
  destruct s as [r cf rs ps sc sl sh sv]. simpl. intros ->.
  destruct e as [sample|dets|dets sol|key|t]; simpl;
    unfold captureThread, lowResThread, highResThread, visThread, spurious;
    simpl.
  - destruct sc; [| destruct sample |]; reflexivity.
  - destruct sl; [| | destruct dets |]; reflexivity.
  - destruct sh as [| |rr|]; try reflexivity.
    destruct (negb (roi_valid rr)); [|destruct dets]; reflexivity.
  - destruct sv as [| |pr|]; try reflexivity.
    destruct (negb (pose_valid pr)); [reflexivity|].
    destruct (key =? key_q); reflexivity.
  - destruct t; reflexivity.
Qed.

Lemma step_no_new_take (s : State) (e : Event) :
  running s = false ->
  (forall fd, st_low (step s e) = Took fd -> st_low s = Took fd)
  /\ (forall rr, st_high (step s e) = Took rr -> st_high s = Took rr)
  /\ (forall pr, st_vis (step s e) = Took pr -> st_vis s = Took pr).
Proof.
  destruct s as [r cf rs ps sc sl sh sv]. simpl. intros ->.
  destruct e as [sample|dets|dets sol|key|t]; simpl;
    unfold captureThread, lowResThread, highResThread, visThread, spurious;
    simpl.
  - destruct sc; [| destruct sample |]; simpl; repeat split; auto.
    intros fd H. apply notify_one_took in H. exact H.
  - destruct sl; [| | destruct dets |]; simpl; repeat split; auto;
      try discriminate.
    intros rr H. apply notify_one_took in H. exact H.
  - destruct sh as [| |rr0|]; simpl; repeat split; auto; try discriminate.
    + destruct (negb (roi_valid rr0)); [|destruct dets]; auto.
    + destruct (negb (roi_valid rr0)); [|destruct dets]; simpl; discriminate.
    + destruct (negb (roi_valid rr0)); [|destruct dets]; simpl; auto.
      intros pr H. apply notify_one_took in H. exact H.
  - destruct sv as [| |pr0|]; simpl; repeat split; auto; try discriminate.
    + destruct (negb (pose_valid pr0)); auto.
    + destruct (negb (pose_valid pr0)); auto.
    + destruct (negb (pose_valid pr0)); simpl; discriminate.
  - destruct t; simpl; repeat split; auto; intros v H;
      apply notify_one_took in H; exact H.
Qed.

(** X1. Nothing in the file sets [running] back to true: once the flag
    is down it stays down under every schedule, and from then on no
    thread takes a value out of a slot; a thread holds a value later
    only if it held that value when the flag went down. *)
Theorem shutdown_is_final (es : list Event) : forall s : State,
  running s = false ->
  running (run s es) = false
  /\ (forall fd, st_low (run s es) = Took fd -> st_low s = Took fd)
  /\ (forall rr, st_high (run s es) = Took rr -> st_high s = Took rr)
  /\ (forall pr, st_vis (run s es) = Took pr -> st_vis s = Took pr).
Proof.
  induction es as [|e es IH]; intros s Hr; simpl.
  - auto.
  - destruct (IH (step s e) (step_keeps_flag_down s e Hr)) as (A & B & C & D).
    destruct (step_no_new_take s e Hr) as (B' & C' & D').
    repeat split; auto.
Qed.

Lemma shutdown_is_final_witness :
  let s := run init sched_quit in
  let es := [RunCap (Some frame_full); RunLow [det_mid]; RunVis 0] in
  running (run s es) = false
  /\ (forall fd, st_low (run s es) = Took fd -> st_low s = Took fd)
  /\ (forall rr, st_high (run s es) = Took rr -> st_high s = Took rr)
  /\ (forall pr, st_vis (run s es) = Took pr -> st_vis s = Took pr).
Proof.
  apply (shutdown_is_final
           [RunCap (Some frame_full); RunLow [det_mid]; RunVis 0]
           (run init sched_quit)).
  reflexivity.
Defined.

(** X2. The only step that clears [running] is the display thread's key
    poll, with the key [q], while it holds a valid pose: the key is
    polled nowhere else. *)
Theorem only_quit_key_clears_flag (s : State) (e : Event) :
  running s = true ->
  running (step s e) = false ->
  e = RunVis key_q
  /\ exists pr, st_vis s = Took pr /\ pose_valid pr = true.
Proof.
  destruct s as [r cf rs ps sc sl sh sv]. simpl. intros ->.
  destruct e as [sample|dets|dets sol|key|t]; simpl;
    unfold captureThread, lowResThread, highResThread, visThread, spurious;
    simpl.
  - destruct sc; [| destruct sample |]; discriminate.
  - destruct sl; [| | destruct dets |]; simpl; try discriminate.
    destruct cf; discriminate.
  - destruct sh as [| |rr|]; simpl; try discriminate.
    + destruct rs; discriminate.
    + destruct (negb (roi_valid rr)); [|destruct dets]; discriminate.
  - destruct sv as [| |pr|]; simpl; try discriminate.
    + destruct ps; discriminate.
    + destruct (pose_valid pr) eqn:Hv; simpl; [|discriminate].
      destruct (key =? key_q) eqn:Hk; [|discriminate].
      intros _. apply Z.eqb_eq in Hk. subst key. eauto.
  - destruct t; discriminate.
Qed.

Lemma only_quit_key_clears_flag_witness :
  RunVis key_q = RunVis key_q
  /\ exists pr, st_vis (run init (removelast sched_quit)) = Took pr
                /\ pose_valid pr = true.
Proof.
  apply (only_quit_key_clears_flag (run init (removelast sched_quit))
                                   (RunVis key_q)).
  - reflexivity.
  - reflexivity.
Defined.

Lemma step_nothing_downstream (s : State) (e : Event) :
  low_finds_nothing e -> nothing_downstream s -> nothing_downstream (step s e).
Proof.
  destruct s as [r cf rs ps sc sl sh sv]. unfold nothing_downstream. simpl.
  intros He (-> & -> & -> & Hh & Hv).
  destruct e as [sample|dets|dets sol|key|t]; simpl;
    unfold captureThread, lowResThread, highResThread, visThread, spurious;
    simpl.
  - destruct sc; [| destruct sample |]; simpl; auto.
  - destruct sl as [| |fd|]; simpl; auto.
    + destruct cf; simpl; auto.
    + destruct dets; [simpl; auto | contradiction].
  - destruct sh as [| |rr|]; simpl; auto.
    + repeat split; auto; discriminate.
    + exfalso. exact (Hh rr eq_refl).
  - destruct sv as [| |pr|]; simpl; auto.
    + repeat split; auto; discriminate.
    + exfalso. exact (Hv pr eq_refl).
  - destruct t; simpl; auto; repeat split; auto; intros v H;
      apply notify_one_took in H; [exact (Hh v H) | exact (Hv v H)].
Qed.

(** X3. As long as the detection thread's detector finds no marker, the
    pipeline cannot be quit: nothing reaches the pose and display
    threads, the key is never polled, and [running] stays true under
    every schedule. *)
Theorem no_marker_no_quit (es : list Event) :
  Forall low_finds_nothing es ->
  let s := run init es in
  running s = true
  /\ roi_result s = None /\ pose_result s = None
  /\ (forall rr, st_high s <> Took rr)
  /\ (forall pr, st_vis s <> Took pr).
Proof.
  intros Hes. cbv zeta.
  assert (H : forall s, nothing_downstream s -> nothing_downstream (run s es)).
  { induction Hes as [|e es He Hes IH]; intros s Hs; simpl; auto.
    apply IH, step_nothing_downstream; assumption. }
  apply H. repeat split; try reflexivity; discriminate.
Qed.

Lemma no_marker_no_quit_witness :
  let s := run init [RunCap None; RunCap (Some frame_full); RunLow [];
                     RunLow []; RunHigh [det_mid] sol_good; RunVis key_q] in
  running s = true
  /\ roi_result s = None /\ pose_result s = None
  /\ (forall rr, st_high s <> Took rr)
  /\ (forall pr, st_vis s <> Took pr).
Proof.
  apply (no_marker_no_quit
           [RunCap None; RunCap (Some frame_full); RunLow [];
            RunLow []; RunHigh [det_mid] sol_good; RunVis key_q]).
  repeat constructor.
Defined.

(* ================================================================== *)
(** * Threads that are awake at shutdown leave their loops *)

Lemma step_rank (s : State) (e : Event) (t : Stage) :
  running s = false -> all_awake s ->
  all_awake (step s e)
  /\ (rank t (step s e) <= rank t s - (if runs_of t e then 1 else 0))%nat.
Proof.
  destruct s as [r cf rs ps sc sl sh sv]. unfold all_awake. simpl.
  intros -> (Hl & Hh & Hv).
  destruct e as [sample|dets|dets sol|key|u]; simpl;
    unfold captureThread, lowResThread, highResThread, visThread, spurious;
    simpl.
  - destruct sc; [| destruct sample |]; simpl;
      destruct t, sl; simpl; repeat split; auto; try congruence; lia.
  - destruct sl as [| |fd|]; [| | destruct dets |]; simpl;
      destruct t, sh; simpl; repeat split; auto; try congruence; lia.
  - destruct sh as [| |rr|]; simpl;
      [| | destruct (negb (roi_valid rr)); [|destruct dets] |]; simpl;
      destruct t, sv; simpl; repeat split; auto; try congruence; lia.
  - destruct sv as [| |pr|]; simpl;
      [| | destruct (negb (pose_valid pr)) |]; simpl;
      destruct t; simpl; repeat split; auto; try congruence; lia.
  - destruct u; simpl; destruct t, sl, sh, sv; simpl; repeat split; auto;
      try congruence; lia.
Qed.

Lemma run_rank (es : list Event) (t : Stage) : forall s,
  running s = false -> all_awake s ->
  (rank t (run s es) <= rank t s - steps_of t es)%nat.
Proof.
  induction es as [|e es IH]; intros s Hr Ha; simpl.
  - unfold steps_of. simpl. lia.
  - destruct (step_rank s e t Hr Ha) as [Ha' Hk].
    specialize (IH (step s e) (step_keeps_flag_down s e Hr) Ha').
    unfold steps_of in *. simpl.
    destruct (runs_of t e); simpl in *; lia.
Qed.

Lemma rank_le_2 (t : Stage) (s : State) : (rank t s <= 2)%nat.
Proof.
  destruct s as [r cf rs ps sc sl sh sv], t; simpl;
    [destruct sc | destruct sl | destruct sh | destruct sv]; simpl; lia.
Qed.

Lemma rank_0_done (s : State) :
  all_awake s ->
  rank Capture s = 0%nat -> rank LowRes s = 0%nat ->
  rank HighRes s = 0%nat -> rank Vis s = 0%nat ->
  all_done s.
Proof.
  destruct s as [r cf rs ps sc sl sh sv]. unfold all_awake, all_done. simpl.
  intros (Hl & Hh & Hv).
  destruct sc, sl, sh, sv; simpl; try discriminate; try congruence; auto.
Qed.

Lemma run_all_awake (es : list Event) : forall s,
  running s = false -> all_awake s -> all_awake (run s es).
Proof.
  induction es as [|e es IH]; intros s Hr Ha; simpl; auto.
  apply IH.
  - apply step_keeps_flag_down, Hr.
  - apply (step_rank s e Capture Hr Ha).
Qed.

(** X4. When the flag is down and no consumer is asleep, every thread
    leaves its loop within two of its own steps, however the steps of the
    four threads are interleaved: at most it finishes the cycle it is
    in, and then the loop test fails. *)
Theorem awake_threads_terminate (s : State) (es : list Event) :
  running s = false -> all_awake s ->
  (2 <= steps_of Capture es)%nat -> (2 <= steps_of LowRes es)%nat ->
  (2 <= steps_of HighRes es)%nat -> (2 <= steps_of Vis es)%nat ->
  all_done (run s es).
Proof.
  intros Hr Ha Hc Hl Hh Hv.
  apply rank_0_done.
  - apply run_all_awake; assumption.
  - pose proof (run_rank es Capture s Hr Ha). pose proof (rank_le_2 Capture s). lia.
  - pose proof (run_rank es LowRes s Hr Ha). pose proof (rank_le_2 LowRes s). lia.
  - pose proof (run_rank es HighRes s Hr Ha). pose proof (rank_le_2 HighRes s). lia.
  - pose proof (run_rank es Vis s Hr Ha). pose proof (rank_le_2 Vis s). lia.
Qed.

Lemma awake_threads_terminate_witness :
  all_done
    (run (run init [RunCap None; RunCap (Some frame_full);
                    RunLow []; RunLow [det_mid];
                    RunHigh [] sol_good; RunHigh [det_mid] sol_good;
                    RunVis 0; RunVis key_q])
         [RunLow []; RunCap None; RunVis 0; RunHigh [] sol_good;
          RunCap None; RunHigh [] sol_good; RunVis 0; RunLow []]).
Proof.
  apply awake_threads_terminate.
  - reflexivity.
  - vm_compute. repeat split; discriminate.
  - vm_compute. lia.
  - vm_compute. lia.
  - vm_compute. lia.
  - vm_compute. lia.
Defined.

(* ================================================================== *)
(** * Rectangles fit their frames all the way down the pipeline *)

Lemma rect_and_crop_ok (a : Rect) (m : Mat) :
  mat_wf m -> crop_ok m (rect_and a (mkRect 0 0 (cols m) (rows m))).
Proof.
  intros [Hc Hr]. unfold rect_and, crop_ok. cbn [x y width height].
  destruct ((Z.min (x a + width a) (0 + cols m) - Z.max (x a) 0 <=? 0)
            || _) eqn:E; cbn [x y width height Rect0].
  - lia.
  - apply orb_false_elim in E. destruct E as [E1 E2].
    apply Z.leb_gt in E1. apply Z.leb_gt in E2. lia.
Qed.

Lemma step_fit_inv (s : State) (e : Event) :
  within_inv s -> fit_inv s -> fit_inv (step s e).
Proof.
  destruct s as [r cf rs ps sc sl sh sv].
  unfold within_inv, fit_inv, roi_published, pose_published. simpl.
  intros (_ & Hl & _) (Hr & Hp).
  destruct e as [sample|dets|dets sol|key|t]; simpl;
    unfold captureThread, lowResThread, highResThread, visThread, spurious;
    simpl.
  - destruct sc; [| destruct sample |]; simpl; auto.
  - destruct sl as [| |fd|]; simpl; auto.
    + destruct (waitAndTake r cf) as [st m]; simpl; auto.
    + destruct dets as [|det ?]; simpl; auto. split; auto.
      intros rr [H|H].
      * injection H as <-. simpl. apply rect_and_crop_ok. auto.
      * apply notify_one_took in H. auto.
  - destruct sh as [| |rr0|]; simpl; auto.
    + destruct (waitAndTake r rs) as [st m] eqn:E; simpl.
      apply waitAndTake_cases in E. split; auto.
      intros rr [H|H];
        destruct E as [[-> ->]|[[-> [-> ->]]|[v [-> [-> ->]]]]];
        try discriminate; auto.
      injection H as <-. auto.
    + destruct (negb (roi_valid rr0)); simpl.
      * split; auto. intros rr [H|H]; [auto|discriminate].
      * destruct dets as [|? ?]; simpl.
        -- split; auto. intros rr [H|H]; [auto|discriminate].
        -- split.
           ++ intros rr [H|H]; [auto|discriminate].
           ++ intros pr [H|H].
              ** injection H as <-. simpl. auto.
              ** apply notify_one_took in H. auto.
  - destruct sv as [| |pr0|]; simpl; auto.
    + destruct (waitAndTake r ps) as [st m] eqn:E; simpl.
      apply waitAndTake_cases in E. split; auto.
      intros pr [H|H];
        destruct E as [[-> ->]|[[-> [-> ->]]|[v [-> [-> ->]]]]];
        try discriminate; auto.
      injection H as <-. auto.
    + destruct (negb (pose_valid pr0)); simpl;
        (split; auto; intros pr [H|H]; [auto|discriminate]).
  - destruct t; simpl; auto; split; auto.
    + intros rr [H|H]; [auto|]. apply notify_one_took in H. auto.
    + intros pr [H|H]; [auto|]. apply notify_one_took in H. auto.
Qed.

Lemma run_fit_inv (es : list Event) : forall s,
  Forall event_wf es -> within_inv s -> fit_inv s -> fit_inv (run s es).
Proof.
  induction es as [|e es IH]; intros s Hes Hw Hf; simpl; auto.
  inversion Hes; subst. apply IH; auto.
  - apply step_within_inv; auto.
  - apply step_fit_inv; auto.
Qed.

(** X5. Under every schedule with well-formed camera frames, the
    rectangle of every region of interest and of every pose that is in a
    slot or in a consumer's hands has non-negative extent and lies within
    the frame of the same record: the crop at line 210 and the rectangle
    drawn at line 285 never leave the image. *)
Theorem rectangles_fit_their_frames (es : list Event) :
  Forall event_wf es ->
  let s := run init es in
  (forall rr, roi_published s rr -> crop_ok (frame (roi_data rr)) (roi rr))
  /\ (forall pr, pose_published s pr ->
                 crop_ok (frame (pose_data pr)) (pose_roi pr)).
Proof.
  intros Hes. cbv zeta.
  apply (run_fit_inv es init Hes init_within_inv).
  split; intros v [H|H]; discriminate.
Qed.

Lemma rectangles_fit_their_frames_witness :
  let s := run init (removelast sched_quit) in
  (forall rr, roi_published s rr -> crop_ok (frame (roi_data rr)) (roi rr))
  /\ (forall pr, pose_published s pr ->
                 crop_ok (frame (pose_data pr)) (pose_roi pr)).
Proof.
  apply (rectangles_fit_their_frames (removelast sched_quit)).
  repeat constructor; simpl; lia.
Defined.

(* ================================================================== *)
(** * One cycle, from the detection thread to the display thread *)



(* ================================================================== *)
(** * Frames are displayed in the order the camera delivered them *)

Lemma subseq_refl {A : Type} (l : list A) : subseq l l.
Proof. induction l; constructor; assumption. Qed.

Lemma subseq_nil_l {A : Type} (l : list A) : subseq [] l.
Proof. induction l; constructor; assumption. Qed.

Lemma subseq_app {A : Type} (l1 l1' l2 l2' : list A) :
  subseq l1 l1' -> subseq l2 l2' -> subseq (l1 ++ l2) (l1' ++ l2').
Proof.
  intros H1 H2. induction H1; simpl; try constructor; assumption.
Qed.

Lemma subseq_trans {A : Type} (l1 l2 l3 : list A) :
  subseq l1 l2 -> subseq l2 l3 -> subseq l1 l3.
Proof.
  intros H12 H23. revert l1 H12.
  induction H23 as [|a l2 l3 H IH|a l2 l3 H IH]; intros l1 H12.
  - exact H12.
  - constructor. apply IH, H12.
  - inversion H12; subst.
    + constructor. apply IH. assumption.
    + apply subseq_keep. apply IH. assumption.
Qed.

Lemma held_notify_one {T : Type} (g : T -> FrameData) (st : Status T) :
  held g (notify_one st) = held g st.
Proof. destruct st; reflexivity. Qed.

Ltac subseq_solve :=
  repeat first
    [ apply subseq_refl
    | apply subseq_nil_l
    | apply subseq_keep
    | apply subseq_app
    | apply subseq_skip ].

Ltac flight_solve :=
  simpl; rewrite ?held_notify_one; rewrite ?app_nil_r;
  rewrite <- ?app_assoc; simpl;
  repeat first
    [ apply subseq_refl
    | apply subseq_nil_l
    | apply subseq_keep
    | apply subseq_app; [apply subseq_refl|]
    | apply subseq_skip ].

(** One step moves frames toward the display, drops some, and lets in
    at most the frame the capture thread stores. *)
Lemma step_in_flight (s : State) (e : Event) :
  subseq (shown s e ++ in_flight (step s e)) (in_flight s ++ stored s e).
Proof.
  destruct s as [r cf rs ps sc sl sh sv].
  destruct e as [sample|dets|dets sol|key|t];
    unfold in_flight, shown, stored, step,
      captureThread, lowResThread, highResThread, visThread, spurious;
    cbn [running cap_frame roi_result pose_result st_cap st_low st_high st_vis].
  - destruct sc, sample as [fd|], cf; flight_solve.
  - destruct sl as [| |fd|]; [destruct r, cf | | destruct dets, rs |];
      flight_solve.
  - destruct sh as [| |rr|];
      [destruct r, rs | | destruct (roi_valid rr), dets, ps |];
      flight_solve.
  - destruct sv as [| |pr|];
      [destruct r, ps | | destruct (pose_valid pr), (key =? key_q) |];
      flight_solve.
  - destruct t; flight_solve.
Qed.

Lemma trace_in_flight (es : list Event) : forall s : State,
  subseq (trace shown s es) (in_flight s ++ trace stored s es).
Proof.
  induction es as [|e es IH]; intros s; simpl.
  - apply subseq_nil_l.
  - apply subseq_trans
      with ((shown s e ++ in_flight (step s e)) ++ trace stored (step s e) es).
    + rewrite <- app_assoc. apply subseq_app; [apply subseq_refl | apply IH].
    + rewrite (app_assoc (in_flight s)).
      apply subseq_app; [apply step_in_flight | apply subseq_refl].
Qed.

(** X7. Under every schedule, the frames the display thread shows are,
    in this order, frames the capture thread stored: the list of shown
    frames is the list of stored frames with some left out.  No stored
    frame is shown twice, none is shown before one stored earlier, and
    nothing is shown that the camera did not deliver. *)
Theorem display_follows_capture_order (es : list Event) :
  subseq (trace shown init es) (trace stored init es).
Proof.
  exact (trace_in_flight es init).
Qed.

Lemma display_trace_example :
  trace stored init sched_quit = [frame_full]
  /\ trace shown init sched_quit = [frame_full].
Proof.
  split; vm_compute; reflexivity.
Qed.

(* ================================================================== *)
(** * The region of interest contains the marker *)

Lemma bbox_of_contains (d : Detection) (p : Point) :
  In p (corners d) ->
  (minx (bbox_of d) <= fst p /\ fst p <= maxx (bbox_of d)
   /\ miny (bbox_of d) <= snd p /\ snd p <= maxy (bbox_of d))%Q.
Proof.
  intros Hp. destruct (bbox_of_fields d) as (-> & -> & -> & ->).
  unfold corners in Hp. simpl in Hp.
  destruct Hp as [<-|[<-|[<-|[<-|[]]]]]; repeat split.
  all: repeat first
         [ apply Qle_refl
         | apply Q.le_min_r
         | apply Q.le_max_r
         | (eapply Qle_trans; [apply Q.le_min_l|])
         | (eapply Qle_trans; [|apply Q.le_max_l]) ].
Qed.

Lemma Qtrunc_bracket (q : Q) :
  (0 <= q)%Q -> (inject_Z (Qtrunc q) <= q /\ q < inject_Z (Qtrunc q) + 1)%Q.
Proof.
  intros H. rewrite Qtrunc_floor_ceiling.
  apply Qnum_nonneg in H. apply Z.leb_le in H. rewrite H.
  split.
  - apply Qfloor_le.
  - pose proof (Qlt_floor q) as L. rewrite inject_Z_plus in L. exact L.
Qed.

(** One axis of lines 166-171: the padded, clipped interval is not empty
    and contains the scaled coordinate of every point between the scanned
    bounds. *)
Lemma clip_covers_1d (lo hi v sx : Q) (full : Z) :
  (0 <= lo)%Q -> (lo <= v)%Q -> (v <= hi)%Q -> (0 <= sx)%Q ->
  (hi * sx <= inject_Z full)%Q -> 0 < full ->
  let X := Qtrunc (lo * sx) - ROI_PAD in
  let Wd := Qtrunc ((hi - lo) * sx) + 2 * ROI_PAD in
  let x1 := Z.max X 0 in
  let w := Z.min (X + Wd) (0 + full) - x1 in
  0 < w /\ (inject_Z x1 <= v * sx /\ v * sx <= inject_Z (x1 + w))%Q.
Proof.
  intros Hlo Hlv Hvh Hsx Hfull Hpos. cbv zeta.
  assert (A0 : (0 <= lo * sx)%Q) by (apply Qmult_le_0_compat; assumption).
  assert (D0 : (0 <= (hi - lo) * sx)%Q)
    by (apply Qmult_le_0_compat; [lra | assumption]).
  destruct (Qtrunc_bracket _ A0) as [A1 A2].
  destruct (Qtrunc_bracket _ D0) as [D1 D2].
  pose proof (Qtrunc_nonneg _ A0) as A3.
  pose proof (Qtrunc_nonneg _ D0) as D3.
  assert (V1 : (lo * sx <= v * sx)%Q) by (apply Qmult_le_compat_r; assumption).
  assert (V2 : (v * sx <= hi * sx)%Q) by (apply Qmult_le_compat_r; assumption).
  assert (E : ((hi - lo) * sx == hi * sx - lo * sx)%Q) by ring.
  set (a := (lo * sx)%Q) in *. set (b := (hi * sx)%Q) in *.
  set (c := (v * sx)%Q) in *. set (e := ((hi - lo) * sx)%Q) in *.
  set (X := Qtrunc a) in *. set (W := Qtrunc e) in *.
  clearbody X W. clearbody a b c e.
  assert (F : (X <= full)%Z).
  { rewrite Zle_Qle. lra. }
  unfold ROI_PAD.
  replace (Z.max (X - 80) 0 + (Z.min (X - 80 + (W + 2 * 80)) (0 + full)
                              - Z.max (X - 80) 0))
    with (Z.min (X + W + 80) full) by lia.
  split; [lia|]. split.
  - destruct (Z.max_spec (X - 80) 0) as [[_ ->]|[_ ->]].
    + change (inject_Z 0) with 0%Q. lra.
    + unfold Zminus. rewrite inject_Z_plus, inject_Z_opp.
      change (inject_Z 80) with 80%Q. lra.
  - destruct (Z.min_spec (X + W + 80) full) as [[_ ->]|[_ ->]].
    + rewrite !inject_Z_plus. change (inject_Z 80) with 80%Q. lra.
    + lra.
Qed.

Lemma scale_nonneg (full low : Z) : 0 < low -> 0 <= full -> (0 <= scale full low)%Q.
Proof.
  intros Hl Hf. unfold scale.
  apply Qle_shift_div_l.
  - unfold Qlt. simpl. lia.
  - assert (H : (0 <= inject_Z full)%Q) by (unfold Qle; simpl; lia). lra.
Qed.

(** X8. For a detection whose corners lie inside the downsampled image
    and a frame that has pixels, the clipped rectangle is not empty and
    contains every corner of the marker mapped to full resolution: the
    padding outweighs what the truncations to [int] cut off. *)
Theorem roi_covers_marker (gray : Mat) (d : Detection) (p : Point) :
  0 < cols gray -> 0 < rows gray ->
  corners_in_image d -> In p (corners d) ->
  let r := compute_roi gray d in
  rect_empty r = false
  /\ (inject_Z (x r) <= fst p * scale (cols gray) LOW_W
      /\ fst p * scale (cols gray) LOW_W <= inject_Z (x r + width r))%Q
  /\ (inject_Z (y r) <= snd p * scale (rows gray) LOW_H
      /\ snd p * scale (rows gray) LOW_H <= inject_Z (y r + height r))%Q.
Proof.
  intros Hc Hr Hd Hp. cbv zeta.
  destruct (bbox_in_image d Hd) as (A & B & C & D & E & F).
  destruct (bbox_of_contains d p Hp) as (Px1 & Px2 & Py1 & Py2).
  assert (Wpos : 0 < LOW_W) by reflexivity.
  assert (Hpos : 0 < LOW_H) by reflexivity.
  assert (Sx : (0 <= scale (cols gray) LOW_W)%Q) by (apply scale_nonneg; lia).
  assert (Sy : (0 <= scale (rows gray) LOW_H)%Q) by (apply scale_nonneg; lia).
  destruct (scale_bounds (maxx (bbox_of d)) (cols gray) LOW_W) as [_ Mx];
    try assumption; try lia; try lra.
  destruct (scale_bounds (maxy (bbox_of d)) (rows gray) LOW_H) as [_ My];
    try assumption; try lia; try lra.
  destruct (clip_covers_1d (minx (bbox_of d)) (maxx (bbox_of d)) (fst p)
              (scale (cols gray) LOW_W) (cols gray) A Px1 Px2 Sx Mx Hc)
    as (Wx & Lx & Ux).
  destruct (clip_covers_1d (miny (bbox_of d)) (maxy (bbox_of d)) (snd p)
              (scale (rows gray) LOW_H) (rows gray) D Py1 Py2 Sy My Hr)
    as (Wy & Ly & Uy).
  unfold compute_roi, rect_and, roi_before_clip, roi_scaled.
  cbv zeta. cbn [x y width height].
  apply Z.leb_gt in Wx. apply Z.leb_gt in Wy.
  rewrite Wx, Wy. unfold rect_empty. cbn [orb x y width height].
  rewrite Wx, Wy. auto.
Qed.

Lemma roi_covers_marker_witness :
  let r := compute_roi (frame frame_full) det_mid in
  rect_empty r = false
  /\ (inject_Z (x r) <= fst (p2 det_mid) * scale (cols (frame frame_full)) LOW_W
      /\ fst (p2 det_mid) * scale (cols (frame frame_full)) LOW_W
         <= inject_Z (x r + width r))%Q
  /\ (inject_Z (y r) <= snd (p2 det_mid) * scale (rows (frame frame_full)) LOW_H
      /\ snd (p2 det_mid) * scale (rows (frame frame_full)) LOW_H
         <= inject_Z (y r + height r))%Q.
Proof.
  apply (roi_covers_marker (frame frame_full) det_mid (p2 det_mid)).
  - reflexivity.
  - reflexivity.
  - repeat constructor; vm_compute; discriminate.
  - simpl. auto.
Defined.

(* ================================================================== *)
(** * The arithmetic of the region of interest stays within [int] *)

(** X9. For corners inside the downsampled image and frames of up to
    [2^29] pixels a side, every [int] computed at lines 166-171,
    including those inside the intersection, lies within the range of a
    32-bit [int]: no cast from [double] and no sum or difference
    overflows. *)
Theorem roi_arithmetic_fits_int (gray : Mat) (d : Detection) :
  mat_wf gray -> cols gray <= 2 ^ 29 -> rows gray <= 2 ^ 29 ->
  corners_in_image d ->
  Forall int_range (roi_ints gray d).
Proof.
  intros Hwf Hc Hr Hd.
  pose proof (roi_before_clip_bounds gray d Hwf Hd) as Hb. cbv zeta in Hb.
  destruct Hwf as [Hc0 Hr0].
  unfold roi_ints. cbv zeta.
  set (a := roi_before_clip gray d) in *.
  assert (Hx : x a = Qtrunc (minx (bbox_of d) * scale (cols gray) LOW_W) - ROI_PAD)
    by reflexivity.
  assert (Hy : y a = Qtrunc (miny (bbox_of d) * scale (rows gray) LOW_H) - ROI_PAD)
    by reflexivity.
  assert (Hw : width a
               = Qtrunc ((maxx (bbox_of d) - minx (bbox_of d))
                         * scale (cols gray) LOW_W) + 2 * ROI_PAD)
    by reflexivity.
  assert (Hh : height a
               = Qtrunc ((maxy (bbox_of d) - miny (bbox_of d))
                         * scale (rows gray) LOW_H) + 2 * ROI_PAD)
    by reflexivity.
  cbn [x y width height].
  unfold int_range, ROI_PAD in *.
  change (2 ^ 31) with 2147483648. change (2 ^ 29) with 536870912 in *.
  repeat constructor; lia.
Qed.

Lemma roi_arithmetic_fits_int_witness :
  Forall int_range (roi_ints (frame frame_full) det_mid).
Proof.
  apply (roi_arithmetic_fits_int (frame frame_full) det_mid).
  - split; simpl; lia.
  - simpl. lia.
  - simpl. lia.
  - repeat constructor; vm_compute; discriminate.
Defined.

(* ================================================================== *)
(** * The corner scan yields the bounding box *)

Lemma min4_attained (a b c d : Q) :
  (min4 a b c d == a \/ min4 a b c d == b
   \/ min4 a b c d == c \/ min4 a b c d == d)%Q.
Proof.
  unfold min4.
  destruct (Q.min_dec (Qmin (Qmin a b) c) d) as [E|E];
    [|right; right; right; exact E].
  destruct (Q.min_dec (Qmin a b) c) as [F|F];
    [|right; right; left; exact (Qeq_trans _ _ _ E F)].
  destruct (Q.min_dec a b) as [G|G].
  - left. exact (Qeq_trans _ _ _ E (Qeq_trans _ _ _ F G)).
  - right; left. exact (Qeq_trans _ _ _ E (Qeq_trans _ _ _ F G)).
Qed.

Lemma max4_attained (a b c d : Q) :
  (max4 a b c d == a \/ max4 a b c d == b
   \/ max4 a b c d == c \/ max4 a b c d == d)%Q.
Proof.
  unfold max4.
  destruct (Q.max_dec (Qmax (Qmax a b) c) d) as [E|E];
    [|right; right; right; exact E].
  destruct (Q.max_dec (Qmax a b) c) as [F|F];
    [|right; right; left; exact (Qeq_trans _ _ _ E F)].
  destruct (Q.max_dec a b) as [G|G].
  - left. exact (Qeq_trans _ _ _ E (Qeq_trans _ _ _ F G)).
  - right; left. exact (Qeq_trans _ _ _ E (Qeq_trans _ _ _ F G)).
Qed.

(** X10. For corner coordinates between the sentinels [-1e9] and [1e9],
    the scan at lines 153-159 yields the bounding box of the four
    corners: every corner lies between the scanned bounds, and each
    bound is the coordinate of one of the corners. *)
Theorem bbox_of_is_bounding_box (d : Detection) :
  coords_bounded d ->
  let b := bbox_of d in
  (forall p, In p (corners d) ->
     (minx b <= fst p /\ fst p <= maxx b /\ miny b <= snd p /\ snd p <= maxy b)%Q)
  /\ (exists p, In p (corners d) /\ (fst p == minx b)%Q)
  /\ (exists p, In p (corners d) /\ (fst p == maxx b)%Q)
  /\ (exists p, In p (corners d) /\ (snd p == miny b)%Q)
  /\ (exists p, In p (corners d) /\ (snd p == maxy b)%Q).
Proof.
  intros Hb. cbv zeta.
  destruct (bbox_of_bounded d Hb) as (A & B & C & D).
  split; [intros p Hp; apply bbox_of_contains; exact Hp|].
  unfold corners. simpl.
  repeat split.
  - destruct (min4_attained (fst (p0 d)) (fst (p1 d)) (fst (p2 d)) (fst (p3 d)))
      as [E|[E|[E|E]]]; fold (corner_minx d) in E; rewrite <- A in E;
      eexists; (split; [|symmetry; exact E]); auto.
  - destruct (max4_attained (fst (p0 d)) (fst (p1 d)) (fst (p2 d)) (fst (p3 d)))
      as [E|[E|[E|E]]]; fold (corner_maxx d) in E; rewrite <- C in E;
      eexists; (split; [|symmetry; exact E]); auto.
  - destruct (min4_attained (snd (p0 d)) (snd (p1 d)) (snd (p2 d)) (snd (p3 d)))
      as [E|[E|[E|E]]]; fold (corner_miny d) in E; rewrite <- B in E;
      eexists; (split; [|symmetry; exact E]); auto.
  - destruct (max4_attained (snd (p0 d)) (snd (p1 d)) (snd (p2 d)) (snd (p3 d)))
      as [E|[E|[E|E]]]; fold (corner_maxy d) in E; rewrite <- D in E;
      eexists; (split; [|symmetry; exact E]); auto.
Qed.

Lemma bbox_of_is_bounding_box_witness :
  let b := bbox_of det_frac in
  (forall p, In p (corners det_frac) ->
     (minx b <= fst p /\ fst p <= maxx b /\ miny b <= snd p /\ snd p <= maxy b)%Q)
  /\ (exists p, In p (corners det_frac) /\ (fst p == minx b)%Q)
  /\ (exists p, In p (corners det_frac) /\ (fst p == maxx b)%Q)
  /\ (exists p, In p (corners det_frac) /\ (snd p == miny b)%Q)
  /\ (exists p, In p (corners det_frac) /\ (snd p == maxy b)%Q).
Proof.
  apply (bbox_of_is_bounding_box det_frac).
  repeat constructor; vm_compute; discriminate.
Defined.

(* ================================================================== *)
(** * The displayed image fits the viewport *)

Lemma cvRound_Z (q : Q) (n : Z) : (q == inject_Z n)%Q -> cvRound q = n.
Proof.
  intros H. unfold cvRound. cbv zeta.
  assert (F : Qfloor q = n) by (rewrite H; apply Qfloor_Z).
  rewrite F.
  assert (E : (q - inject_Z n ?= 1 # 2)%Q = Lt).
  { apply -> Qlt_alt. rewrite H. lra. }
  rewrite E. reflexivity.
Qed.

Lemma cvRound_le (q : Q) (n : Z) : (q <= inject_Z n)%Q -> cvRound q <= n.
Proof.
  intros H. unfold cvRound. cbv zeta.
  pose proof (Qfloor_resp_le _ _ H) as F. rewrite Qfloor_Z in F.
  destruct (Z.eq_dec (Qfloor q) n) as [E|E].
  - assert (Hq : (q == inject_Z n)%Q).
    { apply Qle_antisym; [exact H|]. rewrite <- E. apply Qfloor_le. }
    assert (L : (q - inject_Z (Qfloor q) ?= 1 # 2)%Q = Lt).
    { apply -> Qlt_alt. rewrite E, Hq. lra. }
    rewrite L. lia.
  - destruct (q - inject_Z (Qfloor q) ?= 1 # 2)%Q; [destruct (Z.even _)| |]; lia.
Qed.

Lemma ratio_facts (a b : Z) :
  0 < b ->
  (inject_Z b * (inject_Z a / inject_Z b) == inject_Z a)%Q
  /\ ((inject_Z a / inject_Z b < 1)%Q -> a < b)
  /\ ((1 <= inject_Z a / inject_Z b)%Q -> b <= a).
Proof.
  intros Hb.
  assert (Hb' : (0 < inject_Z b)%Q) by (unfold Qlt; simpl; lia).
  assert (M : (inject_Z b * (inject_Z a / inject_Z b) == inject_Z a)%Q).
  { apply Qmult_div_r. lra. }
  split; [exact M|]. split; intros H.
  - rewrite Zlt_Qlt.
    pose proof (proj2 (Qmult_lt_l _ _ (inject_Z b) Hb') H) as P.
    rewrite Qmult_1_r, M in P. exact P.
  - rewrite Zle_Qle.
    pose proof (proj2 (Qmult_le_l _ _ (inject_Z b) Hb') H) as P.
    rewrite Qmult_1_r, M in P. exact P.
Qed.

(** X11. For an image with pixels and a positive viewport, whatever
    [imshowScaled] hands to [cv::imshow] fits the viewport and is never
    larger than the image; an image that fits is shown as it is, and an
    image that does not is scaled so that it touches the viewport in
    width or in height. *)
Theorem imshowScaled_fits (img : Mat) (maxW maxH : Z) (r : Mat) :
  0 < cols img -> 0 < rows img -> 0 < maxW -> 0 < maxH ->
  imshowScaled img maxW maxH = Some r ->
  0 < cols r <= maxW /\ 0 < rows r <= maxH
  /\ cols r <= cols img /\ rows r <= rows img
  /\ (cols img <= maxW /\ rows img <= maxH -> r = img)
  /\ (maxW < cols img \/ maxH < rows img -> cols r = maxW \/ rows r = maxH).
Proof.
  intros Hc Hr HW HH. unfold imshowScaled. cbv zeta. rewrite dmin_Qmin.
  destruct (ratio_facts maxW (cols img) Hc) as (Mw & Lw & Gw).
  destruct (ratio_facts maxH (rows img) Hr) as (Mh & Lh & Gh).
  set (sw := (inject_Z maxW / inject_Z (cols img))%Q) in *.
  set (sh := (inject_Z maxH / inject_Z (rows img))%Q) in *.
  assert (Hc' : (0 < inject_Z (cols img))%Q) by (unfold Qlt; simpl; lia).
  assert (Hr' : (0 < inject_Z (rows img))%Q) by (unfold Qlt; simpl; lia).
  pose proof (Q.le_min_l sw sh) as Sl. pose proof (Q.le_min_r sw sh) as Sr.
  destruct (Qmin sw sh ?= 1)%Q eqn:E.
  - intros [= <-]. apply Qeq_alt in E.
    assert (G1 : (1 <= sw)%Q) by lra. assert (G2 : (1 <= sh)%Q) by lra.
    specialize (Gw G1). specialize (Gh G2).
    repeat split; try lia; auto.
  - apply Qlt_alt in E. unfold resize. cbv zeta.
    set (s := Qmin sw sh) in *.
    assert (Cw : (inject_Z (cols img) * s <= inject_Z maxW)%Q).
    { pose proof (proj2 (Qmult_le_l _ _ _ Hc') Sl) as P.
      rewrite Mw in P. exact P. }
    assert (Ch : (inject_Z (rows img) * s <= inject_Z maxH)%Q).
    { pose proof (proj2 (Qmult_le_l _ _ _ Hr') Sr) as P.
      rewrite Mh in P. exact P. }
    assert (S1 : (s <= 1)%Q) by lra.
    assert (Dw : (inject_Z (cols img) * s <= inject_Z (cols img))%Q).
    { pose proof (proj2 (Qmult_le_l _ _ _ Hc') S1) as P.
      rewrite Qmult_1_r in P. exact P. }
    assert (Dh : (inject_Z (rows img) * s <= inject_Z (rows img))%Q).
    { pose proof (proj2 (Qmult_le_l _ _ _ Hr') S1) as P.
      rewrite Qmult_1_r in P. exact P. }
    apply cvRound_le in Cw, Ch, Dw, Dh.
    destruct ((cvRound (inject_Z (cols img) * s) <=? 0)
              || (cvRound (inject_Z (rows img) * s) <=? 0)) eqn:Z0;
      [discriminate|].
    apply orb_false_elim in Z0. destruct Z0 as [Z1 Z2].
    apply Z.leb_gt in Z1. apply Z.leb_gt in Z2.
    intros [= <-]. cbn [cols rows].
    repeat split; try lia.
    + intros [F1 F2]. exfalso.
      assert (G : (1 <= s)%Q).
      { apply Q.min_glb; apply Qle_shift_div_l; try assumption;
          rewrite Qmult_1_l; rewrite <- Zle_Qle; assumption. }
      lra.
    + intros _. destruct (Q.min_dec sw sh) as [F|F]; fold s in F.
      * left. apply cvRound_Z. rewrite F. exact Mw.
      * right. apply cvRound_Z. rewrite F. exact Mh.
  - intros [= <-]. apply Qgt_alt in E.
    assert (G1 : (1 <= sw)%Q) by lra. assert (G2 : (1 <= sh)%Q) by lra.
    specialize (Gw G1). specialize (Gh G2).
    repeat split; try lia; auto.
Qed.

Lemma imshowScaled_fits_witness :
  0 < cols (mkMat 1201 900) <= imshow_maxW
  /\ 0 < rows (mkMat 1201 900) <= imshow_maxH
  /\ cols (mkMat 1201 900) <= cols (frame frame_full)
  /\ rows (mkMat 1201 900) <= rows (frame frame_full)
  /\ (cols (frame frame_full) <= imshow_maxW
      /\ rows (frame frame_full) <= imshow_maxH
      -> mkMat 1201 900 = frame frame_full)
  /\ (imshow_maxW < cols (frame frame_full)
      \/ imshow_maxH < rows (frame frame_full)
      -> cols (mkMat 1201 900) = imshow_maxW
         \/ rows (mkMat 1201 900) = imshow_maxH).
Proof.
  apply (imshowScaled_fits (frame frame_full) imshow_maxW imshow_maxH
           (mkMat 1201 900)).
  - reflexivity.
  - reflexivity.
  - reflexivity.
  - reflexivity.
  - vm_compute. reflexivity.
Defined.

Lemma cvRound_pos (q : Q) : (1 # 2 < q)%Q -> 0 < cvRound q.
Proof.
  intros H. unfold cvRound. cbv zeta.
  assert (F0 : 0 <= Qfloor q).
  { rewrite <- (Qfloor_Z 0). apply Qfloor_resp_le.
    change (inject_Z 0) with 0%Q. lra. }
  destruct (Z.eq_dec (Qfloor q) 0) as [E|E].
  - rewrite E. change (inject_Z 0) with 0%Q.
    assert (G : (q - 0 ?= 1 # 2)%Q = Gt) by (apply -> Qgt_alt; lra).
    rewrite G. lia.
  - destruct (q - inject_Z (Qfloor q) ?= 1 # 2)%Q; [destruct (Z.even _)| |]; lia.
Qed.

(** X12. [imshowScaled] shows something, that is [cv::resize] does not
    raise, for every image whose sides are not further apart than the
    viewport allows: [rows < 2 * maxH * cols] and
    [cols < 2 * maxW * rows]. *)
Theorem imshowScaled_shows (img : Mat) (maxW maxH : Z) :
  0 < cols img -> 0 < rows img -> 0 < maxW -> 0 < maxH ->
  rows img < 2 * maxH * cols img ->
  cols img < 2 * maxW * rows img ->
  exists r, imshowScaled img maxW maxH = Some r.
Proof.
  intros Hc Hr HW HH A1 A2. unfold imshowScaled. cbv zeta. rewrite dmin_Qmin.
  destruct (ratio_facts maxW (cols img) Hc) as (Mw & _ & _).
  destruct (ratio_facts maxH (rows img) Hr) as (Mh & _ & _).
  set (sw := (inject_Z maxW / inject_Z (cols img))%Q) in *.
  set (sh := (inject_Z maxH / inject_Z (rows img))%Q) in *.
  assert (Hc' : (0 < inject_Z (cols img))%Q) by (unfold Qlt; simpl; lia).
  assert (Hr' : (0 < inject_Z (rows img))%Q) by (unfold Qlt; simpl; lia).
  assert (HW' : (1 <= inject_Z maxW)%Q) by (unfold Qle; simpl; lia).
  assert (HH' : (1 <= inject_Z maxH)%Q) by (unfold Qle; simpl; lia).
  destruct (Qmin sw sh ?= 1)%Q; eauto.
  unfold resize. cbv zeta.
  assert (B1 : (inject_Z (rows img) < 2 * inject_Z maxH * inject_Z (cols img))%Q).
  { rewrite Zlt_Qlt in A1. rewrite !inject_Z_mult in A1. exact A1. }
  assert (B2 : (inject_Z (cols img) < 2 * inject_Z maxW * inject_Z (rows img))%Q).
  { rewrite Zlt_Qlt in A2. rewrite !inject_Z_mult in A2. exact A2. }
  assert (Pw : (1 # 2 < inject_Z (cols img) * Qmin sw sh)%Q).
  { destruct (Q.min_dec sw sh) as [F|F]; rewrite F.
    - rewrite Mw. lra.
    - unfold sh. apply Qmult_lt_r with (z := inject_Z (rows img)); [assumption|].
      field_simplify; [|lra]. field_simplify in B1. lra. }
  assert (Ph : (1 # 2 < inject_Z (rows img) * Qmin sw sh)%Q).
  { destruct (Q.min_dec sw sh) as [F|F]; rewrite F.
    - unfold sw. apply Qmult_lt_r with (z := inject_Z (cols img)); [assumption|].
      field_simplify; [|lra]. field_simplify in B2. lra.
    - rewrite Mh. lra. }
  apply cvRound_pos in Pw, Ph.
  apply Z.leb_gt in Pw. apply Z.leb_gt in Ph. rewrite Pw, Ph. simpl. eauto.
Qed.

Lemma imshowScaled_shows_witness :
  exists r, imshowScaled (frame frame_full) imshow_maxW imshow_maxH = Some r.
Proof.
  apply (imshowScaled_shows (frame frame_full) imshow_maxW imshow_maxH);
    vm_compute; reflexivity.
Defined.

(** Outside that range the resize can raise: scaled to the default
    viewport the sliver would be zero pixels wide. *)
Lemma imshowScaled_sliver :
  imshowScaled mat_sliver imshow_maxW imshow_maxH = None.
Proof. vm_compute. reflexivity. Qed.

(* ================================================================== *)
(** * No value waits for a sleeping consumer *)

Lemma step_sleepers (s : State) (e : Event) :
  sleepers_have_empty_slots s -> sleepers_have_empty_slots (step s e).
Proof.
  destruct s as [r cf rs ps sc sl sh sv].
  unfold sleepers_have_empty_slots. simpl. intros (Hl & Hh & Hv).
  destruct e as [sample|dets|dets sol|key|t]; simpl;
    unfold captureThread, lowResThread, highResThread, visThread, spurious;
    simpl.
  - destruct sc; [| destruct sample |]; simpl; auto.
    repeat split; auto. destruct sl; simpl; discriminate.
  - destruct sl as [| |fd|]; simpl; auto.
    + destruct r, cf; simpl; repeat split; auto; discriminate.
    + destruct dets; simpl; repeat split; auto; try discriminate.
      destruct sh; simpl; discriminate.
  - destruct sh as [| |rr|]; simpl; auto.
    + destruct r, rs; simpl; repeat split; auto; discriminate.
    + destruct (negb (roi_valid rr)); [|destruct dets]; simpl;
        repeat split; auto; try discriminate.
      destruct sv; simpl; discriminate.
  - destruct sv as [| |pr|]; simpl; auto.
    + destruct r, ps; simpl; repeat split; auto; discriminate.
    + destruct (negb (pose_valid pr)); simpl; repeat split; auto; discriminate.
  - destruct t; simpl; auto; repeat split; auto.
    + destruct sl; simpl; auto; discriminate.
    + destruct sh; simpl; auto; discriminate.
    + destruct sv; simpl; auto; discriminate.
Qed.

(** X13. No wake-up for a value is ever lost: under every schedule,
    spurious wake-ups included, a consumer that is asleep in [cv.wait]
    has an empty slot.  Each store is followed by its [notify_one], and a
    consumer goes to sleep only on an empty slot. *)
Theorem sleeping_consumer_has_empty_slot (es : list Event) :
  let s := run init es in
  (st_low s = Blocked -> cap_frame s = None)
  /\ (st_high s = Blocked -> roi_result s = None)
  /\ (st_vis s = Blocked -> pose_result s = None).
Proof.
  cbv zeta.
  assert (H : forall s, sleepers_have_empty_slots s ->
                        sleepers_have_empty_slots (run s es)).
  { induction es as [|e es IH]; intros s Hs; simpl; auto.
    apply IH, step_sleepers, Hs. }
  apply H. repeat split; discriminate.
Qed.

(* ================================================================== *)
(** * Records keep frame and rectangle together *)



(* ================================================================== *)
(** * The data service: callbacks, messages and reconnects *)

Lemma tell_status_no_callback (st : ConnStatus) (s : Svc) :
  statusCallback s = None -> tell_status st s = [].
Proof. unfold tell_status. intros ->. reflexivity. Qed.

Lemma ds_step_quiet (s : Svc) (e : DsEvent) :
  is_connect e = false ->
  dataCallback s = None -> statusCallback s = None ->
  dataCallback (ds_step s e) = None
  /\ statusCallback (ds_step s e) = None
  /\ filter is_callback (effects (ds_step s e)) = filter is_callback (effects s).
Proof.
  destruct s as [dc sc mi w t iv n ef]. simpl. intros He -> ->.
  destruct e as [od os| |c rs|k|k p|k|k| |i m]; try discriminate; simpl.
  - repeat split. rewrite filter_app.
    destruct mi, w; simpl; rewrite ?app_nil_r; reflexivity.
  - unfold sendCommand. simpl. destruct w, rs; simpl; repeat split;
      rewrite filter_app; simpl; rewrite app_nil_r; reflexivity.
  - repeat split. simpl. rewrite app_nil_r. reflexivity.
  - destruct p; simpl; auto.
  - repeat split. simpl. rewrite app_nil_r. reflexivity.
  - repeat split. rewrite filter_app. simpl. rewrite app_nil_r. reflexivity.
  - destruct t; simpl; auto. repeat split.
    rewrite filter_app. simpl. rewrite app_nil_r. reflexivity.
  - destruct (existsb (Nat.eqb i) iv); simpl; auto.
Qed.

(** X15. After [disconnectFromDataStream], whatever the browser delivers
    (messages, socket events, reconnect timeouts, interval ticks) and
    whatever commands are sent, neither callback of the application is
    called again until [connectToDataStream] is called. *)
Theorem no_callbacks_after_disconnect (s : Svc) (es : list DsEvent) :
  forallb (fun e => negb (is_connect e)) es = true ->
  filter is_callback (effects (ds_run (disconnectFromDataStream s) es))
  = filter is_callback (effects (disconnectFromDataStream s)).
Proof.
  intros Hes.
  assert (H : forall s0, dataCallback s0 = None -> statusCallback s0 = None ->
            filter is_callback (effects (ds_run s0 es))
            = filter is_callback (effects s0)).
  { induction es as [|e es IH]; intros s0 Hd Hs; simpl; [reflexivity|].
    simpl in Hes. apply andb_prop in Hes. destruct Hes as [He Hes].
    apply negb_true_iff in He.
    destruct (ds_step_quiet s0 e He Hd Hs) as (A & B & C).
    rewrite (IH Hes _ A B). exact C. }
  apply H; reflexivity.
Qed.

Lemma no_callbacks_after_disconnect_witness :
  filter is_callback
    (effects (ds_run (disconnectFromDataStream
                        (ds_run svc_init [Connect (Some 1%nat) (Some 2%nat); OnOpen 0]))
                     [OnClose 0; OnMessage 0 (Some 7%nat); TimerFires; OnOpen 1;
                      OnMessage 1 (Some 8%nat); Command 9%nat OPEN]))
  = filter is_callback
      (effects (disconnectFromDataStream
                  (ds_run svc_init [Connect (Some 1%nat) (Some 2%nat); OnOpen 0]))).
Proof.
  apply no_callbacks_after_disconnect. reflexivity.
Defined.

Lemma sockets_opened_app (l1 l2 : list Effect) :
  sockets_opened (l1 ++ l2) = sockets_opened l1 ++ sockets_opened l2.
Proof. apply flat_map_app. Qed.

Lemma sockets_opened_tell (st : ConnStatus) (s : Svc) :
  sockets_opened (tell_status st s) = [].
Proof. unfold tell_status. destruct (statusCallback s); reflexivity. Qed.

Lemma ds_step_sockets (s : Svc) (e : DsEvent) :
  (length (sockets_opened (effects (ds_step s e))) + timers (ds_step s e)
   = length (sockets_opened (effects s)) + timers s
     + (if is_connect e then 1 else 0) + (if is_close e then 1 else 0))%nat.
Proof.
  destruct s as [dc sc mi w t iv n ef].
  destruct e as [od os| |c rs|k|k p|k|k| |i m]; simpl.
  - unfold connectToDataStream, connectWebSocket. simpl.
    rewrite !sockets_opened_app, sockets_opened_tell, !length_app. simpl. lia.
  - rewrite sockets_opened_app, length_app.
    destruct mi, w; simpl; lia.
  - unfold sendCommand. simpl. destruct w, rs; simpl;
      rewrite ?sockets_opened_app, ?length_app; simpl; lia.
  - rewrite sockets_opened_app, sockets_opened_tell, length_app. simpl. lia.
  - destruct p, dc; simpl; rewrite ?sockets_opened_app, ?length_app; simpl; lia.
  - rewrite sockets_opened_app, sockets_opened_tell, length_app. simpl. lia.
  - rewrite !sockets_opened_app, sockets_opened_tell, !length_app. simpl. lia.
  - destruct t; simpl; [lia|]. unfold connectWebSocket. simpl.
    rewrite !sockets_opened_app, sockets_opened_tell, !length_app. simpl. lia.
  - destruct (existsb (Nat.eqb i) iv), dc; simpl;
      rewrite ?sockets_opened_app, ?length_app; simpl; lia.
Qed.

(** X16. Reconnects are never cancelled.  Along every sequence of calls
    and browser events, the sockets opened so far plus the reconnect
    timeouts still pending number exactly the calls of
    [connectToDataStream] plus the close events received:
    [disconnectFromDataStream] takes nothing back, so the close of the
    socket it shuts is answered by a new socket like any other. *)
Theorem every_close_reopens (es : list DsEvent) : forall s : Svc,
  (length (sockets_opened (effects (ds_run s es))) + timers (ds_run s es)
   = length (sockets_opened (effects s)) + timers s
     + count_events is_connect es + count_events is_close es)%nat.
Proof.
  induction es as [|e es IH]; intros s; simpl.
  - unfold count_events. simpl. lia.
  - rewrite IH, ds_step_sockets. unfold count_events. simpl.
    destruct (is_connect e), (is_close e); simpl; lia.
Qed.

(** The shortest case: the application disconnects, the socket closes,
    the timeout fires, and the module holds a new socket with nobody
    listening. *)
Lemma reconnect_after_disconnect (s : Svc) (k : nat) :
  let s' := ds_run s [Disconnect; OnClose k; TimerFires] in
  ws s' = Some (next_id s)
  /\ dataCallback s' = None /\ statusCallback s' = None
  /\ effects s' = effects (disconnectFromDataStream s)
                  ++ [SetTimeout; NewSocket (next_id s)].
Proof.
  destruct s as [dc sc mi w t iv n ef]. simpl.
  unfold connectWebSocket. simpl. repeat split.
  rewrite <- !app_assoc. reflexivity.
Qed.

Lemma data_calls_app (l1 l2 : list Effect) :
  data_calls (l1 ++ l2) = data_calls l1 ++ data_calls l2.
Proof. apply flat_map_app. Qed.

Lemma data_calls_tell (st : ConnStatus) (s : Svc) :
  data_calls (tell_status st s) = [].
Proof. unfold tell_status. destruct (statusCallback s); reflexivity. Qed.

(** X17. Between two calls of the module's interface, with a data
    callback registered and no interval running, the callback receives
    exactly the messages that parse, each once and in the order of their
    arrival, from whichever socket they come; messages that do not parse
    are skipped, and nothing else is handed to it. *)
Theorem messages_delivered_in_order
    (s : Svc) (cb : Callback) (es : list DsEvent) :
  dataCallback s = Some cb -> intervals s = [] ->
  forallb (fun e => negb (is_api_call e)) es = true ->
  data_calls (effects (ds_run s es))
  = data_calls (effects s) ++ map (fun d => (cb, d)) (parsed_messages es).
Proof.
  revert s. induction es as [|e es IH]; intros s Hd Hi Hes; simpl.
  - rewrite app_nil_r. reflexivity.
  - simpl in Hes. apply andb_prop in Hes. destruct Hes as [He Hes].
    apply negb_true_iff in He.
    assert (S1 : dataCallback (ds_step s e) = Some cb
                 /\ intervals (ds_step s e) = []
                 /\ data_calls (effects (ds_step s e))
                    = data_calls (effects s)
                      ++ map (fun d => (cb, d)) (parsed_messages [e])).
    { destruct s as [dc sc mi w t iv n ef]. simpl in *. subst dc iv.
      destruct e as [od os| |c rs|k|k p|k|k| |i m]; try discriminate; simpl.
      - unfold sendCommand. simpl. destruct w, rs; simpl;
          rewrite ?data_calls_app; simpl; rewrite ?app_nil_r; auto.
      - rewrite data_calls_app, data_calls_tell, app_nil_r. auto.
      - destruct p; simpl; rewrite ?data_calls_app; simpl;
          rewrite ?app_nil_r; auto.
      - rewrite data_calls_app, data_calls_tell, app_nil_r. auto.
      - rewrite !data_calls_app, data_calls_tell. simpl.
        rewrite app_nil_r. auto.
      - destruct t; simpl; rewrite ?app_nil_r; auto.
        unfold connectWebSocket. simpl.
        rewrite !data_calls_app, data_calls_tell. simpl.
        rewrite app_nil_r. auto.
      - rewrite app_nil_r. auto. }
    destruct S1 as (A & B & C).
    rewrite (IH _ A B Hes), C. simpl. rewrite app_nil_r.
    rewrite <- app_assoc, <- map_app. reflexivity.
Qed.

Lemma messages_delivered_in_order_witness :
  data_calls
    (effects (ds_run (ds_run svc_init [Connect (Some 1%nat) (Some 2%nat)])
                     [OnOpen 0; OnMessage 0 (Some 7%nat); OnMessage 0 None;
                      OnClose 0; TimerFires; OnMessage 1 (Some 8%nat)]))
  = data_calls (effects (ds_run svc_init [Connect (Some 1%nat) (Some 2%nat)]))
    ++ map (fun d => (1%nat, d))
           (parsed_messages [OnOpen 0; OnMessage 0 (Some 7%nat); OnMessage 0 None;
                             OnClose 0; TimerFires; OnMessage 1 (Some 8%nat)]).
Proof.
  apply (messages_delivered_in_order
           (ds_run svc_init [Connect (Some 1%nat) (Some 2%nat)]) 1%nat).
  - reflexivity.
  - reflexivity.
  - reflexivity.
Defined.

(* ================================================================== *)
(** * The detection thread takes the latest frame *)

Lemma run_app (es1 es2 : list Event) (s : State) :
  run s (es1 ++ es2) = run (run s es1) es2.
Proof. unfold run. apply fold_left_app. Qed.

Lemma trace_app {A : Type} (f : State -> Event -> list A)
    (es1 es2 : list Event) : forall s,
  trace f s (es1 ++ es2) = trace f s es1 ++ trace f (run s es1) es2.
Proof.
  induction es1 as [|e es1 IH]; intros s; simpl.
  - reflexivity.
  - rewrite IH, app_assoc. reflexivity.
Qed.

Lemma step_cap_frame (s : State) (e : Event) (fd : FrameData) :
  cap_frame (step s e) = Some fd ->
  stored s e = [fd] \/ (stored s e = [] /\ cap_frame s = Some fd).
Proof.
  destruct s as [r cf rs ps sc sl sh sv].
  destruct e as [sample|dets|dets sol|key|t]; simpl;
    unfold captureThread, lowResThread, highResThread, visThread, spurious,
      stored; simpl.
  - destruct sc, sample; simpl; auto. intros [= <-]. auto.
  - destruct sl; simpl; auto.
    + destruct r, cf; simpl; auto; discriminate.
    + destruct dets; simpl; auto.
  - destruct sh as [| |rr|]; simpl; auto.
    + destruct (waitAndTake r rs); simpl; auto.
    + destruct (negb (roi_valid rr)); [|destruct dets]; simpl; auto.
  - destruct sv as [| |pr|]; simpl; auto.
    + destruct (waitAndTake r ps); simpl; auto.
    + destruct (negb (pose_valid pr)); simpl; auto.
  - destruct t; simpl; auto.
Qed.

Lemma slot_holds_latest (es : list Event) : forall fd,
  cap_frame (run init es) = Some fd ->
  exists l, trace stored init es = l ++ [fd].
Proof.
  induction es as [|e es IH] using rev_ind; intros fd H.
  - discriminate.
  - rewrite run_app in H. simpl in H. rewrite trace_app. simpl.
    rewrite app_nil_r.
    destruct (step_cap_frame _ _ _ H) as [E|[E F]]; rewrite E.
    + eauto.
    + rewrite app_nil_r. apply IH, F.
Qed.

(** X18. Whenever the detection thread takes a frame, it is the frame the
    capture thread stored last: under every schedule, the frame it holds
    after a take is the last element of the list of frames stored up to
    that step, however many were stored since its previous take. *)
Theorem detection_takes_latest_frame
    (es : list Event) (dets : list Detection) (fd : FrameData) :
  st_low (run init es) = Ready ->
  st_low (run init (es ++ [RunLow dets])) = Took fd ->
  exists l, trace stored init (es ++ [RunLow dets]) = l ++ [fd].
Proof.
  intros Hr Ht. rewrite run_app in Ht. simpl in Ht.
  rewrite trace_app. simpl. rewrite !app_nil_r.
  apply slot_holds_latest.
  unfold lowResThread in Ht. rewrite Hr in Ht.
  destruct (running (run init es)), (cap_frame (run init es)) as [fd'|];
    simpl in Ht; try discriminate.
  injection Ht as <-. reflexivity.
Qed.

Lemma detection_takes_latest_frame_witness :
  exists l,
    trace stored init
      (capture_all [mkFrameData (mkMat 640 480) 1; frame_full] ++ [RunLow []])
    = l ++ [frame_full].
Proof.
  apply (detection_takes_latest_frame
           (capture_all [mkFrameData (mkMat 640 480) 1; frame_full]) []
           frame_full).
  - reflexivity.
  - reflexivity.
Defined.
